(** * Streaming tool-execution output: a model of the code of
    [prds/streaming-tool-output.prd.md]

    The development follows the TypeScript of the design document:

    - [Executor]: the [data] handlers that [executeCommand] installs on
      the child's stdout and stderr (Phase 1);
    - [Chat]: the per-call progress state of [use-moldable-chat.ts],
      [handleStreamEvent] and [handleToolResult] (Phase 3);
    - [Server]: [createStreamingToolExecutor] and the writer that the
      running commands share (Phase 2);
    - [Abort]: the abort listener of [executeCommand] (Phase 5);
    - [Throttler] and [Completion]: components the document only
      describes in prose; they are modelled from the specification.

    JavaScript strings are modelled by [string]; the code only uses
    [.length] and [+] on them, which do not depend on the alphabet. *)

From Stdlib Require Import ZArith Lia Ascii String.
From stdpp Require Import gmap strings list fin_maps.

Local Open Scope string_scope.
Local Open Scope list_scope.

(** ** Strings *)

(** Concatenation of a list of strings, left to right. *)
Definition concat_strings (l : list string) : string :=
  foldr String.append "" l.

(** ** The command executor: [executeCommand] in [packages/ai/src/tools/bash.ts] *)

Module Executor.

(** The [type] of the argument of [onProgress]: ['stdout' | 'stderr']. *)
Inductive Channel := Stdout | Stderr.

#[export] Instance Channel_eq_dec : EqDecision Channel.
Proof. solve_decision. Defined.

(** The argument of [onProgress]: [{ type, content }]. *)
Record Update := { type : Channel; content : string }.

#[export] Instance Update_eq_dec : EqDecision Update.
Proof. solve_decision. Defined.

(** A [data] event of the child: the channel it arrives on and
    [data.toString()]. *)
Inductive DataEvent :=
| StdoutData (chunk : string)
| StderrData (chunk : string).

Section Handlers.

(** [W] is whatever the progress callback acts on. *)
Context {W : Type}.

(** [options.maxBuffer], a JavaScript number. *)
Variable maxBuffer : Z.

(** [options.onProgress], which is optional. *)
Variable onProgress : option (Update -> W -> W).

(** The local variables [stdout] and [stderr] of [executeCommand],
    together with the world of the callback. *)
Record State := { stdout : string; stderr : string; world : W }.

(** [options.onProgress?.(u)] *)
Definition callProgress (u : Update) (w : W) : W :=
  match onProgress with
  | Some cb => cb u w
  | None => w
  end.

(** [acc.length + chunk.length <= maxBuffer] *)
Definition fits (acc chunk : string) : bool :=
  (Z.of_nat (String.length acc) + Z.of_nat (String.length chunk)
     <=? maxBuffer)%Z.

(** [child.stdout?.on('data', ...)] *)
Definition onStdoutData (chunk : string) (s : State) : State :=
  if fits (stdout s) chunk then
    {| stdout := stdout s +:+ chunk;
       stderr := stderr s;
       world := callProgress {| type := Stdout; content := chunk |} (world s) |}
  else s.

(** [child.stderr?.on('data', ...)] *)
Definition onStderrData (chunk : string) (s : State) : State :=
  if fits (stderr s) chunk then
    {| stdout := stdout s;
       stderr := stderr s +:+ chunk;
       world := callProgress {| type := Stderr; content := chunk |} (world s) |}
  else s.

(** The handler of the channel the event arrives on. *)
Definition onData (e : DataEvent) (s : State) : State :=
  match e with
  | StdoutData chunk => onStdoutData chunk s
  | StderrData chunk => onStderrData chunk s
  end.

(** The handlers run once per event, in arrival order. *)
Definition run (es : list DataEvent) (s : State) : State :=
  foldl (fun acc e => onData e acc) s es.

(** Both accumulators start empty. *)
Definition init (w : W) : State :=
  {| stdout := ""; stderr := ""; world := w |}.

(** [executeCommand] as far as its output is concerned: the accumulators
    and the world of the callback once the child has produced [es]. *)
Definition executeCommand (es : list DataEvent) (w : W) : State :=
  run es (init w).

End Handlers.

Arguments State : clear implicits.
Arguments Build_State {W} _ _ _.
Arguments init {W} _.

(** The accumulator of a channel. *)
Definition acc {W : Type} (c : Channel) (s : State W) : string :=
  match c with Stdout => stdout s | Stderr => stderr s end.

(** The channel and the raw chunk of an arrival. *)
Definition arrival (e : DataEvent) : Update :=
  match e with
  | StdoutData chunk => {| type := Stdout; content := chunk |}
  | StderrData chunk => {| type := Stderr; content := chunk |}
  end.

(** A callback that records each invocation: its world is the list of
    the arguments it was called with, oldest first. *)
Definition record : option (Update -> list Update -> list Update) :=
  Some (fun u log => log ++ [u]).

(** The contents the callback received for one channel, in order. *)
Definition contentsOf (c : Channel) (log : list Update) : list string :=
  content <$> filter (fun u => type u = c) log.

(** The chunks that arrived on one channel, in order. *)
Definition chunksOf (c : Channel) (es : list DataEvent) : list string :=
  contentsOf c (arrival <$> es).

End Executor.

(** ** Client-side progress state: [desktop/src/hooks/use-moldable-chat.ts] *)

Module Chat.

(** [ToolProgressUpdate.type]: ['stdout' | 'stderr' | 'status']. *)
Inductive ProgressType := Stdout | Stderr | Status.

#[export] Instance ProgressType_eq_dec : EqDecision ProgressType.
Proof. solve_decision. Defined.

(** [interface ToolProgressUpdate]; the timestamp is a number of
    milliseconds. *)
Record ToolProgressUpdate := {
  toolCallId : string;
  type : ProgressType;
  content : string;
  timestamp : Z
}.

(** The events of the UI message stream. Only [tool-progress] is read by
    the handlers below, through [event.toolCallId] and [event.progress];
    the payload of the other five kinds is left out. *)
Inductive StreamEvent :=
| TextDelta
| ToolCallStreamingStart
| ToolCallDelta
| ToolCallStreamingFinish
| ToolProgress (eventToolCallId : string) (progress : ToolProgressUpdate)
| ToolResult.

(** The value type of the [toolProgress] state:
    [{ stdout: string; stderr: string }]. *)
Record Progress := { stdout : string; stderr : string }.

#[export] Instance Progress_eq_dec : EqDecision Progress.
Proof. solve_decision. Defined.

(** [prev[id]?.stdout || ''] *)
Definition prevStdout (prev : gmap string Progress) (id : string) : string :=
  match prev !! id with
  | Some p => stdout p
  | None => ""
  end.

(** [prev[id]?.stderr || ''] *)
Definition prevStderr (prev : gmap string Progress) (id : string) : string :=
  match prev !! id with
  | Some p => stderr p
  | None => ""
  end.

(** [handleStreamEvent]: the function handed to [setToolProgress], applied
    to the previous state. Events other than [tool-progress] do not reach
    [setToolProgress]. *)
Definition handleStreamEvent (event : StreamEvent)
    (prev : gmap string Progress) : gmap string Progress :=
  match event with
  | ToolProgress id progress =>
      <[ id := {| stdout :=
                    prevStdout prev id +:+
                    (if decide (type progress = Stdout)
                     then content progress else "");
                  stderr :=
                    prevStderr prev id +:+
                    (if decide (type progress = Stderr)
                     then content progress else "") |} ]> prev
  | _ => prev
  end.

(** [handleToolResult]: [const { [toolCallId]: _, ...rest } = prev; return rest]. *)
Definition handleToolResult (toolCallId : string)
    (prev : gmap string Progress) : gmap string Progress :=
  delete toolCallId prev.

(** What the hook receives: a stream event for [handleStreamEvent] or the
    completion of a call for [handleToolResult]. *)
Inductive Message :=
| Event (event : StreamEvent)
| Completed (toolCallId : string).

(** The handler a message goes to. *)
Definition deliver (m : Message) (prev : gmap string Progress)
    : gmap string Progress :=
  match m with
  | Event event => handleStreamEvent event prev
  | Completed id => handleToolResult id prev
  end.

(** Messages are handled one at a time, in delivery order. *)
Definition deliverAll (ms : list Message) (prev : gmap string Progress)
    : gmap string Progress :=
  foldl (fun st m => deliver m st) prev ms.

(** [handleStreamEvent] on each event of the stream, in delivery order. *)
Definition handleAll (events : list StreamEvent) (prev : gmap string Progress)
    : gmap string Progress :=
  foldl (fun st e => handleStreamEvent e st) prev events.

(** The call a message is addressed to, if any. *)
Definition addressee (m : Message) : option string :=
  match m with
  | Event (ToolProgress id _) => Some id
  | Event _ => None
  | Completed id => Some id
  end.

(** The content that an event contributes to a channel of a call: the
    content of a [tool-progress] event of that call and that type. *)
Definition delivered (id : string) (t : ProgressType) (event : StreamEvent)
    : list string :=
  match event with
  | ToolProgress id' progress =>
      if decide (id' = id) then
        if decide (type progress = t) then [content progress] else []
      else []
  | _ => []
  end.

(** All contents delivered for a channel of a call, in delivery order. *)
Definition deliveredAll (id : string) (t : ProgressType)
    (events : list StreamEvent) : list string :=
  events ≫= delivered id t.

(** The calls that have a [tool-progress] event among the events. *)
Definition progressCalls (events : list StreamEvent) : gset string :=
  list_to_set (events ≫= (fun e => match e with
                                   | ToolProgress id _ => [id]
                                   | _ => []
                                   end)).

End Chat.

(** ** Server-side wiring: [createStreamingToolExecutor] in
    [packages/ai-server/src/index.ts] *)

Module Server.

(** What [writer.write] receives:
    [{ type: 'tool-progress', toolCallId, progress: update }]. *)
Record ToolProgressEvent := {
  toolCallId : string;
  progress : Executor.Update
}.

(** The [onProgress] that the wrapped [execute] hands to [executeCommand]
    for the call [context.toolCallId]. The world of the callback is what
    has been written to [writer], oldest first. *)
Definition onProgress (toolCallId : string)
    : option (Executor.Update -> list ToolProgressEvent -> list ToolProgressEvent) :=
  Some (fun update written =>
          written ++ [ {| toolCallId := toolCallId; progress := update |} ]).

Section Tools.

(** [CoreTool]. *)
Variable Tool : Type.

(** [{ ...tool, execute: ... }]: the tool with its [execute] replaced by
    the one that streams to [writer]. *)
Variable streaming : Tool -> Tool.

(** [createStreamingToolExecutor(tools, writer)]:
    [Object.fromEntries(Object.entries(tools).map(...))], where only the
    entry named ['runCommand'] is replaced. *)
Definition createStreamingToolExecutor (tools : gmap string Tool)
    : gmap string Tool :=
  map_imap (fun name tool =>
              Some (if decide (name = "runCommand") then streaming tool
                    else tool)) tools.

End Tools.

(** The commands that run side by side: per call, the [stdout] and
    [stderr] locals of its [executeCommand] (a call that has stored
    nothing yet has no entry: both are empty), and what has been written
    to the one [writer] all calls share. Tool call ids are unique. *)
Record Running := {
  calls : gmap string (string * string);
  written : list ToolProgressEvent
}.

(** No command has produced anything, nothing is written. *)
Definition idle : Running := {| calls := ∅; written := [] |}.

(** The [stdout] and [stderr] of a call. *)
Definition output (id : string) (r : Running) : string * string :=
  default ("", "") (calls r !! id).

(** What the handlers of the call [id] see: their own accumulators and
    the shared writer. *)
Definition stateOf (id : string) (r : Running)
    : Executor.State (list ToolProgressEvent) :=
  {| Executor.stdout := (output id r).1;
     Executor.stderr := (output id r).2;
     Executor.world := written r |}.

(** A [data] event of the child of the call [id]: the handler that
    [executeCommand] installed for that call runs, with the callback of
    that call. *)
Definition onChildData (maxBuffer : Z) (id : string) (e : Executor.DataEvent)
    (r : Running) : Running :=
  let s := Executor.onData maxBuffer (onProgress id) e (stateOf id r) in
  {| calls := <[ id := (Executor.stdout s, Executor.stderr s) ]> (calls r);
     written := Executor.world s |}.

(** The event loop takes the [data] events of all children one at a time,
    in the order they arrive. *)
Definition serve (maxBuffer : Z) (evs : list (string * Executor.DataEvent))
    (r : Running) : Running :=
  foldl (fun acc ev => onChildData maxBuffer ev.1 ev.2 acc) r evs.

(** The [data] events of one call, in order. *)
Definition ownData (id : string) (evs : list (string * Executor.DataEvent))
    : list Executor.DataEvent :=
  snd <$> filter (fun ev => ev.1 = id) evs.

(** The written events of one call, in order. *)
Definition writtenFor (id : string) (ws : list ToolProgressEvent)
    : list ToolProgressEvent :=
  filter (fun w => toolCallId w = id) ws.

(** ['stdout'] and ['stderr'] as the client reads them. *)
Definition wireType (c : Executor.Channel) : Chat.ProgressType :=
  match c with
  | Executor.Stdout => Chat.Stdout
  | Executor.Stderr => Chat.Stderr
  end.

(** The stream event the hook reads for a written event: a
    [tool-progress] event with the same [toolCallId], and the [type] and
    [content] of the update. The hook reads nothing else of it. *)
Definition received (w : ToolProgressEvent) (e : Chat.StreamEvent) : Prop :=
  match e with
  | Chat.ToolProgress id p =>
      id = toolCallId w
      /\ Chat.type p = wireType (Executor.type (progress w))
      /\ Chat.content p = Executor.content (progress w)
  | _ => False
  end.

End Server.

(** ** Cancellation: the abort listener of [executeCommand] (Phase 5) *)

Module Abort.

(** The two signals the listener sends. *)
Inductive Signal := SIGTERM | SIGKILL.

#[export] Instance Signal_eq_dec : EqDecision Signal.
Proof. solve_decision. Defined.

(** The [ChildProcess] object of Node, as far as the listener uses it:
    - [running]: Node still holds the handle of the process, which it
      does from the spawn until it has seen the process exit (its ['exit']
      event); a process that has terminated but whose exit Node has not
      seen yet still counts as running;
    - [killed]: the property [child.killed], which Node documents as
      "whether the child process successfully received a signal from
      [subprocess.kill()]"; it "does not indicate that the child process
      has been terminated";
    - [received]: the signals sent to the process, oldest first. *)
Record Child := { running : bool; killed : bool; received : list Signal }.

(** [child.kill(signal)]: while Node holds the handle the signal is sent
    and [killed] becomes true; once Node has seen the exit, and the handle
    is gone, nothing is sent and [killed] keeps its value. The listener
    drops the returned boolean. *)
Definition kill (signal : Signal) (c : Child) : Child :=
  if running c then
    {| running := true; killed := true; received := received c ++ [signal] |}
  else c.

(** The event loop: the child and the delays (in ms) of the timers that
    [setTimeout] has armed and that have not fired yet, oldest first. *)
Record Loop := { child : Child; timers : list Z }.

(** The callback given to [setTimeout]:
    [if (!child.killed) child.kill('SIGKILL')]. *)
Definition onTimer (c : Child) : Child :=
  if negb (killed c) then kill SIGKILL c else c.

(** The listener of the ['abort'] event:
    [child.kill('SIGTERM'); setTimeout(..., 5000)]. *)
Definition onAbort (l : Loop) : Loop :=
  {| child := kill SIGTERM (child l); timers := timers l ++ [5000%Z] |}.

(** What can happen after the listener is installed: the signal aborts,
    the oldest armed timer fires, or Node sees the process exit (on its
    own or because of a signal it received). *)
Inductive Event := Aborted | TimerFired | Exited.

(** One turn of the event loop. A timer that fires runs its callback and
    is gone; the exit of the process releases the handle and leaves
    [child.killed] as it is. *)
Definition step (e : Event) (l : Loop) : Loop :=
  match e with
  | Aborted => onAbort l
  | TimerFired =>
      match timers l with
      | [] => l
      | _ :: rest => {| child := onTimer (child l); timers := rest |}
      end
  | Exited =>
      {| child := {| running := false;
                     killed := killed (child l);
                     received := received (child l) |};
         timers := timers l |}
  end.

(** The events are handled one at a time, in order. *)
Definition run (es : list Event) (l : Loop) : Loop :=
  foldl (fun acc e => step e acc) l es.

(** A freshly spawned child: running, no signal sent, no timer armed. *)
Definition spawned : Loop :=
  {| child := {| running := true; killed := false; received := [] |};
     timers := [] |}.

(** An invariant of the loop: [SIGKILL] has not been sent, and while a
    timer is armed either [child.killed] is set or Node has seen the child
    exit. *)
Definition guarded (l : Loop) : Prop :=
  (SIGKILL ∉ received (child l))
  /\ (timers l <> [] -> killed (child l) = true \/ running (child l) = false).

End Abort.

(** ** The progress throttler (specification, section 4.2) *)

Module Throttler.

(** Modelled from the spec: the throttler is described in section 4.2
    and is not part of the sources. [ProgressUpdate.kind]. *)
Inductive Kind := Stdout | Stderr | Status.

#[export] Instance Kind_eq_dec : EqDecision Kind.
Proof. solve_decision. Defined.

(** Modelled from the spec: what travels on the wire,
    [progress: {kind, content, timestamp}]. *)
Record ProgressUpdate := { kind : Kind; content : string; timestamp : Z }.

#[export] Instance ProgressUpdate_eq_dec : EqDecision ProgressUpdate.
Proof. solve_decision. Defined.

(** Modelled from the spec: throttle time window, in ms (default 100). *)
Definition timeWindow : Z := 100.

(** Modelled from the spec: throttle size window (default 4 KB). *)
Definition sizeWindow : nat := 4096.

(** Modelled from the spec: per channel, the content not yet emitted and
    the time of the last emission (the start of the execution before the
    first one). *)
Record Chan := { unflushed : string; lastEmission : Z }.

(** Modelled from the spec: what the wrapped callback is handed, a raw
    chunk of a channel, at time [now]. *)
Inductive Input :=
| Raw (k : Kind) (chunk : string) (now : Z).

(** The time of an input. *)
Definition time (i : Input) : Z :=
  match i with Raw _ _ now => now end.

(** The channel of an input. *)
Definition kindOf (i : Input) : Kind :=
  match i with Raw k _ _ => k end.

(** The state of the throttler is a channel state per kind. *)
Definition setChan (k : Kind) (c : Chan) (st : Kind -> Chan) : Kind -> Chan :=
  fun k' => if decide (k' = k) then c else st k'.

(** Modelled from the spec: "100 ms have elapsed since the last emission
    for that channel": the moment the timer of a channel fires. *)
Definition deadline (c : Chan) : Z := lastEmission c + timeWindow.

(** Modelled from the spec: the timer of a channel. It is armed while the
    channel holds unflushed content and fires at the deadline of the
    channel: by the time [now], if the deadline has passed, the unflushed
    content has left as one update, at the deadline. *)
Definition fire (k : Kind) (now : Z) (st : Kind -> Chan)
    : (Kind -> Chan) * list ProgressUpdate :=
  if negb (String.eqb (unflushed (st k)) "")
     && (deadline (st k) <=? now)%Z then
    (setChan k {| unflushed := ""; lastEmission := deadline (st k) |} st,
     [ {| kind := k; content := unflushed (st k);
          timestamp := deadline (st k) |} ])
  else (st, []).

(** Modelled from the spec: the timers that have fired by the time [now],
    channel by channel (the order between channels is not constrained). *)
Definition catchUp (now : Z) (st : Kind -> Chan)
    : (Kind -> Chan) * list ProgressUpdate :=
  let '(st1, out1) := fire Stdout now st in
  let '(st2, out2) := fire Stderr now st1 in
  let '(st3, out3) := fire Status now st2 in
  (st3, out1 ++ out2 ++ out3).

(** Modelled from the spec: "(a) 100 ms have elapsed since the last
    emission for that channel, or (b) 4 KB of unflushed content has
    accumulated for that channel"; an update coalesces content, so a
    channel with nothing unflushed emits nothing. *)
Definition due (now : Z) (c : Chan) : bool :=
  negb (String.eqb (unflushed c) "") &&
  ((timeWindow <=? now - lastEmission c)%Z
   || (sizeWindow <=? String.length (unflushed c))%nat).

(** Modelled from the spec: "Emits a coalesced ProgressUpdate whenever
    either (a) ... or (b) ...": when a chunk arrives on a channel that is
    due, the whole unflushed content of the channel leaves as one update,
    at once, and the channel starts afresh. *)
Definition poll (k : Kind) (now : Z) (st : Kind -> Chan)
    : (Kind -> Chan) * list ProgressUpdate :=
  if due now (st k) then
    (setChan k {| unflushed := ""; lastEmission := now |} st,
     [ {| kind := k; content := unflushed (st k); timestamp := now |} ])
  else (st, []).

(** Modelled from the spec: a raw chunk joins the unflushed content of
    its channel. *)
Definition absorb (i : Input) (st : Kind -> Chan) : Kind -> Chan :=
  match i with
  | Raw k chunk _ =>
      setChan k {| unflushed := unflushed (st k) +:+ chunk;
                   lastEmission := lastEmission (st k) |} st
  end.

(** Modelled from the spec: the arrival of a raw chunk. The timers that
    were due before it have fired; the chunk is absorbed; its channel
    emits at once if it is due. *)
Definition step (i : Input) (st : Kind -> Chan)
    : (Kind -> Chan) * list ProgressUpdate :=
  let '(st1, out1) := catchUp (time i) st in
  let '(st2, out2) := poll (kindOf i) (time i) (absorb i st1) in
  (st2, out1 ++ out2).

(** Modelled from the spec: the arrivals of a sequence of chunks, with
    the updates emitted, in order. *)
Fixpoint run (inputs : list Input) (st : Kind -> Chan)
    : (Kind -> Chan) * list ProgressUpdate :=
  match inputs with
  | [] => (st, [])
  | i :: rest =>
      let '(st1, out1) := step i st in
      let '(st2, out2) := run rest st1 in
      (st2, out1 ++ out2)
  end.

(** Modelled from the spec: "On executor completion, flushes any remaining
    unflushed content as a final emission". *)
Definition flushChan (k : Kind) (now : Z) (st : Kind -> Chan)
    : list ProgressUpdate :=
  if String.eqb (unflushed (st k)) "" then []
  else [ {| kind := k; content := unflushed (st k); timestamp := now |} ].

(** Modelled from the spec: the final flush, channel by channel. *)
Definition flush (now : Z) (st : Kind -> Chan) : list ProgressUpdate :=
  flushChan Stdout now st ++ flushChan Stderr now st ++ flushChan Status now st.

(** Modelled from the spec: nothing unflushed, last emission at the
    start of the execution. *)
Definition start (t0 : Z) : Kind -> Chan :=
  fun _ => {| unflushed := ""; lastEmission := t0 |}.

(** Modelled from the spec: the updates that the throttler emits on its
    own for an execution that starts at [t0], receives [inputs] and
    completes at [finish]: those of the arrivals, then those of the timers
    that fire before the completion. *)
Definition throttled (t0 : Z) (inputs : list Input) (finish : Z)
    : (Kind -> Chan) * list ProgressUpdate :=
  let '(st1, out1) := run inputs (start t0) in
  let '(st2, out2) := catchUp finish st1 in
  (st2, out1 ++ out2).

(** Modelled from the spec: what the consumer sees of one execution. *)
Inductive Output :=
| Progress (u : ProgressUpdate)
| TerminalResult.

(** Modelled from the spec: what the consumer sees of an execution: the
    throttled updates, then the final flush, then the terminal result. *)
Definition session (t0 : Z) (inputs : list Input) (finish : Z) : list Output :=
  let '(st, out) := throttled t0 inputs finish in
  (Progress <$> out) ++ (Progress <$> flush finish st) ++ [TerminalResult].











End Throttler.

(** ** Completion of the executor (specification, sections 4.1, 4.4 and 7) *)

Module Completion.

(** Modelled from the spec: the completion path of [executeCommand] is
    not part of the sources. [outcome] of the final result. *)
Inductive Outcome := Success | Error | Cancelled | Timeout.

#[export] Instance Outcome_eq_dec : EqDecision Outcome.
Proof. solve_decision. Defined.

(** Modelled from the spec: the final result, without the output it
    carries; a process that never started has no exit code. *)
Record Result := { exitCode : option Z; outcome : Outcome }.

(** Modelled from the spec: how the eventual value of the executor
    settles. *)
Inductive Settlement :=
| Resolved (r : Result)
| Thrown (reason : string).

(** Modelled from the spec: why termination of the child was
    requested. *)
Inductive Cause := External | TimedOut.

(** Modelled from the spec: the life of one execution. *)
Inductive Phase :=
| Running (requested : option Cause)
| Settled (s : Settlement).

(** Modelled from the spec: what happens to an execution. The process
    cannot start, the cancellation signal is triggered, the timeout
    elapses, output arrives, or the process exits with a code. *)
Inductive Event :=
| SpawnFailed (reason : string)
| CancelTriggered
| TimeoutElapsed
| Output
| ProcessExited (code : Z).

(** Modelled from the spec: "cancelled / timeout per termination cause",
    and success for a process that exits with no termination requested. *)
Definition outcomeFor (requested : option Cause) : Outcome :=
  match requested with
  | None => Success
  | Some External => Cancelled
  | Some TimedOut => Timeout
  end.

(** Modelled from the spec: the completion path of [executeCommand] is
    elided in the sources ("rest unchanged"). "Completion resolves with
    outcome success (process exited, any exit code) or error (spawn
    failure) or cancelled / timeout per termination cause"; a timeout is
    treated "identically to an external cancellation"; the promise
    resolves "exactly once termination is confirmed - never before"; a
    spawn failure is "never thrown across the protocol boundary". *)
Definition step (e : Event) (p : Phase) : Phase :=
  match p with
  | Settled _ => p
  | Running requested =>
      match e with
      | SpawnFailed _ =>
          Settled (Resolved {| exitCode := None; outcome := Error |})
      | CancelTriggered =>
          Running (Some (default External requested))
      | TimeoutElapsed =>
          Running (Some (default TimedOut requested))
      | Output => p
      | ProcessExited code =>
          Settled (Resolved
            {| exitCode := Some code; outcome := outcomeFor requested |})
      end
  end.

(** Modelled from the spec: an execution starts running, with no
    termination requested, and takes the events in order. *)
Definition execute (es : list Event) : Phase :=
  foldl (fun p e => step e p) (Running None) es.

(** The outcome an execution has settled with, if it has. *)
Definition outcomeOf (p : Phase) : option Outcome :=
  match p with
  | Settled (Resolved r) => Some (outcome r)
  | _ => None
  end.

(** The events that end an execution. *)
Definition terminal (e : Event) : bool :=
  match e with
  | SpawnFailed _ | ProcessExited _ => true
  | _ => false
  end.

(** An event that does not end the execution. *)
Definition pending (e : Event) : Prop := terminal e = false.

(** The first request for termination among the events, if any. *)
Fixpoint firstRequest (es : list Event) : option Cause :=
  match es with
  | [] => None
  | CancelTriggered :: _ => Some External
  | TimeoutElapsed :: _ => Some TimedOut
  | _ :: rest => firstRequest rest
  end.

End Completion.

(** * Properties *)

(** ** Strings: concatenation and length *)

Lemma string_app_cons (a : ascii) (s t : string) :
  String a s +:+ t = String a (s +:+ t).
Proof. reflexivity. Qed.

Lemma string_app_nil_l (s : string) : "" +:+ s = s.
Proof. reflexivity. Qed.

Lemma string_app_nil_r (s : string) : s +:+ "" = s.
Proof.
  induction s as [|a s IH]; [reflexivity|].
  rewrite string_app_cons. by rewrite IH.
Qed.

Lemma string_app_assoc (s t u : string) : (s +:+ t) +:+ u = s +:+ (t +:+ u).
Proof.
  induction s as [|a s IH]; [reflexivity|].
  rewrite !string_app_cons. by rewrite IH.
Qed.

Lemma string_length_app (s t : string) :
  String.length (s +:+ t) = String.length s + String.length t.
Proof.
  induction s as [|a s IH]; [reflexivity|].
  rewrite string_app_cons. simpl. by rewrite IH.
Qed.

Lemma concat_strings_cons (s : string) (l : list string) :
  concat_strings (s :: l) = s +:+ concat_strings l.
Proof. reflexivity. Qed.

Lemma concat_strings_app (l1 l2 : list string) :
  concat_strings (l1 ++ l2) = concat_strings l1 +:+ concat_strings l2.
Proof.
  induction l1 as [|s l1 IH]; [reflexivity|].
  rewrite <- app_comm_cons, !concat_strings_cons, IH.
  by rewrite string_app_assoc.
Qed.

(** ** The executor *)

Module ExecutorSpec.
Import Executor.

Section Generic.

Context {W : Type}.
Variable maxBuffer : Z.
Variable onProgress : option (Update -> W -> W).

(** A chunk that fits is appended to the accumulator of its channel, the
    other accumulator is kept, and the callback runs once on it. *)
Lemma onData_fits (e : DataEvent) (s : State W) :
  fits maxBuffer (acc (type (arrival e)) s) (content (arrival e)) = true ->
  let s' := onData maxBuffer onProgress e s in
  acc (type (arrival e)) s' = acc (type (arrival e)) s +:+ content (arrival e)
  /\ (forall c, c <> type (arrival e) -> acc c s' = acc c s)
  /\ world s' = callProgress onProgress (arrival e) (world s).
Proof.
  destruct e as [chunk|chunk]; simpl; intros Hfit.
  - unfold onStdoutData. rewrite Hfit. simpl.
    split; [done|]. split; [|done]. by intros [].
  - unfold onStderrData. rewrite Hfit. simpl.
    split; [done|]. split; [|done]. by intros [].
Qed.

(** A chunk that does not fit changes nothing. *)
Lemma onData_overflow (e : DataEvent) (s : State W) :
  fits maxBuffer (acc (type (arrival e)) s) (content (arrival e)) = false ->
  onData maxBuffer onProgress e s = s.
Proof.
  destruct e as [chunk|chunk]; simpl; intros Hfit.
  - unfold onStdoutData. by rewrite Hfit.
  - unfold onStderrData. by rewrite Hfit.
Qed.

Lemma run_snoc (es : list DataEvent) (e : DataEvent) (s : State W) :
  run maxBuffer onProgress (es ++ [e]) s
  = onData maxBuffer onProgress e (run maxBuffer onProgress es s).
Proof. unfold run. by rewrite foldl_app. Qed.

(** The cap bounds an accumulator that starts below it. *)
Lemma onData_bounded (e : DataEvent) (s : State W) (c : Channel) :
  (Z.of_nat (String.length (acc c s)) <= maxBuffer)%Z ->
  (Z.of_nat (String.length (acc c (onData maxBuffer onProgress e s)))
     <= maxBuffer)%Z.
Proof.
  intros Hle.
  destruct (fits maxBuffer (acc (type (arrival e)) s) (content (arrival e)))
    eqn:Hfit.
  - destruct (onData_fits e s Hfit) as (Hacc & Hother & _).
    destruct (decide (c = type (arrival e))) as [->|Hne].
    + rewrite Hacc, string_length_app.
      unfold fits in Hfit. apply Z.leb_le in Hfit. lia.
    + by rewrite Hother.
  - by rewrite onData_overflow.
Qed.

(** An accumulator is made of whole chunks of its channel, in arrival
    order. *)
Lemma run_whole_chunks (es : list DataEvent) (w : W) (c : Channel) :
  exists kept : list string,
    kept `sublist_of` chunksOf c es
    /\ acc c (run maxBuffer onProgress es (init w)) = concat_strings kept.
Proof.
  induction es as [|e es IH] using rev_ind.
  - exists []. split; [constructor|]. by destruct c.
  - destruct IH as (kept & Hsub & Hacc).
    rewrite run_snoc.
    assert (Hchunks : chunksOf c (es ++ [e])
                      = chunksOf c es ++ chunksOf c [e]).
    { unfold chunksOf, contentsOf.
      by rewrite fmap_app, filter_app, fmap_app. }
    rewrite Hchunks.
    set (s := run maxBuffer onProgress es (init w)) in *.
    destruct (fits maxBuffer (acc (type (arrival e)) s) (content (arrival e)))
      eqn:Hfit.
    + destruct (onData_fits e s Hfit) as (Happ & Hother & _).
      destruct (decide (c = type (arrival e))) as [->|Hne].
      * exists (kept ++ [content (arrival e)]). split.
        -- apply sublist_app; [done|].
           unfold chunksOf, contentsOf. simpl.
           rewrite filter_cons_True by done. done.
        -- rewrite Happ, Hacc, concat_strings_app. simpl.
           by rewrite string_app_nil_r.
      * exists kept. split.
        -- rewrite <- (app_nil_r kept). apply sublist_app; [done|].
           apply sublist_nil_l.
        -- by rewrite Hother.
    + rewrite onData_overflow by done.
      exists kept. split; [|done].
      rewrite <- (app_nil_r kept). apply sublist_app; [done|].
      apply sublist_nil_l.
Qed.

End Generic.

(** With the recording callback, the chunks the callback received for a
    channel add up to the accumulator of that channel. *)
Lemma log_adds_up (maxBuffer : Z) (es : list DataEvent) (c : Channel) :
  concat_strings (contentsOf c (world (run maxBuffer record es (init []))))
  = acc c (run maxBuffer record es (init [])).
Proof.
  induction es as [|e es IH] using rev_ind.
  - by destruct c.
  - rewrite run_snoc.
    set (s := run maxBuffer record es (init [])) in *.
    destruct (fits maxBuffer (acc (type (arrival e)) s) (content (arrival e)))
      eqn:Hfit.
    + destruct (onData_fits maxBuffer record e s Hfit) as (Happ & Hother & Hw).
      rewrite Hw. simpl.
      unfold contentsOf in *. rewrite filter_app, fmap_app, concat_strings_app.
      rewrite IH.
      destruct (decide (c = type (arrival e))) as [->|Hne].
      * rewrite Happ. rewrite filter_cons_True by done. simpl.
        by rewrite string_app_nil_r.
      * rewrite Hother by done. rewrite filter_cons_False by congruence.
        simpl. by rewrite string_app_nil_r.
    + by rewrite onData_overflow.
Qed.

(** C1, as stated, fails: with [maxBuffer = 3] the chunk ["abc"] fills
    the accumulator to the cap; the chunk ["de"] that arrives next is not
    handed to the callback, so the progress stream is cut at the cap like
    the stored result. *)
Lemma progress_stops_at_cap :
  acc Stdout (executeCommand 3 record [StdoutData "abc"; StdoutData "de"] [])
    = "abc"
  /\ world (executeCommand 3 record [StdoutData "abc"; StdoutData "de"] [])
     = [ {| type := Stdout; content := "abc" |} ]
  /\ world (executeCommand 3 record [StdoutData "abc"; StdoutData "de"] [])
     <> arrival <$> [StdoutData "abc"; StdoutData "de"].
Proof. split; [reflexivity|]. split; [reflexivity | discriminate]. Qed.

(** C1 (amended): a chunk that fits under [maxBuffer] is appended to the
    accumulator of its channel and the progress callback is invoked exactly
    once, with that raw chunk; a chunk that does not fit is neither stored
    nor emitted. Hence the chunks emitted for a channel always add up to
    the stored result of that channel. *)
Theorem progress_follows_stored_result
    (maxBuffer : Z) (s : State (list Update)) (e : DataEvent)
    (es : list DataEvent) (c : Channel) :
  (if fits maxBuffer (acc (type (arrival e)) s) (content (arrival e))
   then world (onData maxBuffer record e s) = world s ++ [arrival e]
        /\ acc (type (arrival e)) (onData maxBuffer record e s)
           = acc (type (arrival e)) s +:+ content (arrival e)
   else world (onData maxBuffer record e s) = world s
        /\ acc (type (arrival e)) (onData maxBuffer record e s)
           = acc (type (arrival e)) s)
  /\ concat_strings (contentsOf c (world (executeCommand maxBuffer record es [])))
     = acc c (executeCommand maxBuffer record es []).
Proof.
  split; [|apply log_adds_up].
  destruct (fits maxBuffer (acc (type (arrival e)) s) (content (arrival e)))
    eqn:Hfit.
  - destruct (onData_fits maxBuffer record e s Hfit) as (Happ & _ & Hw).
    by split.
  - by rewrite onData_overflow.
Qed.

(** C10: a chunk that would take the accumulator of its channel beyond
    [maxBuffer] is discarded whole: the state, and with it both
    accumulators and whatever the callback acts on, is left as it was.
    So an accumulator is always a concatenation of whole chunks of its
    channel, and its length never exceeds [maxBuffer] (a size, so not
    negative). *)
Theorem truncation_is_chunk_atomic {W : Type}
    (maxBuffer : Z) (onProgress : option (Update -> W -> W))
    (s : State W) (e : DataEvent) (es : list DataEvent) (w : W) (c : Channel)
    (Hcap : (0 <= maxBuffer)%Z) :
  ((maxBuffer < Z.of_nat (String.length (acc (type (arrival e)) s))
                + Z.of_nat (String.length (content (arrival e))))%Z ->
   onData maxBuffer onProgress e s = s)
  /\ (Z.of_nat (String.length (acc c (executeCommand maxBuffer onProgress es w)))
        <= maxBuffer)%Z
  /\ exists kept : list string,
       kept `sublist_of` chunksOf c es
       /\ acc c (executeCommand maxBuffer onProgress es w) = concat_strings kept.
Proof.
  unfold executeCommand. split; [|split].
  - intros Hover. apply onData_overflow.
    unfold fits. apply Z.leb_gt. lia.
  - induction es as [|e' es IH] using rev_ind.
    + by destruct c.
    + rewrite run_snoc. by apply onData_bounded.
  - apply run_whole_chunks.
Qed.

(** With [maxBuffer = 4], ["de"] after ["abc"] is dropped whole. *)
Lemma truncation_is_chunk_atomic_witness :
  (0 <= 4)%Z
  /\ onData 4 record (StdoutData "de")
       (executeCommand 4 record [StdoutData "abc"] [])
     = executeCommand 4 record [StdoutData "abc"] []
  /\ (Z.of_nat (String.length
        (acc Stdout
           (executeCommand 4 record [StdoutData "abc"; StdoutData "de"] [])))
      <= 4)%Z.
Proof.
  assert (Hcap : (0 <= 4)%Z) by lia.
  destruct (truncation_is_chunk_atomic 4 record
              (executeCommand 4 record [StdoutData "abc"] [])
              (StdoutData "de") [StdoutData "abc"; StdoutData "de"] []
              Stdout Hcap) as (Hdrop & Hlen & _).
  split; [exact Hcap|]. split; [|exact Hlen].
  apply Hdrop. vm_compute. reflexivity.
Defined.

End ExecutorSpec.

(** ** The progress state of the chat hook *)

Module ChatSpec.
Import Chat.

Lemma handleAll_snoc (events : list StreamEvent) (e : StreamEvent)
    (prev : gmap string Progress) :
  handleAll (events ++ [e]) prev = handleStreamEvent e (handleAll events prev).
Proof. unfold handleAll. by rewrite foldl_app. Qed.

Lemma deliverAll_snoc (ms : list Message) (m : Message)
    (prev : gmap string Progress) :
  deliverAll (ms ++ [m]) prev = deliver m (deliverAll ms prev).
Proof. unfold deliverAll. by rewrite foldl_app. Qed.

(** The entry that [handleStreamEvent] writes for a [tool-progress]
    event. *)
Lemma handleStreamEvent_lookup (id : string) (u : ToolProgressUpdate)
    (prev : gmap string Progress) :
  handleStreamEvent (ToolProgress id u) prev !! id
  = Some {| stdout := prevStdout prev id +:+
                      (if decide (type u = Stdout) then content u else "");
            stderr := prevStderr prev id +:+
                      (if decide (type u = Stderr) then content u else "") |}.
Proof. simpl. by rewrite lookup_insert_eq. Qed.

(** An event leaves alone every call it is not a progress event of. *)
Lemma handleStreamEvent_other (e : StreamEvent) (j : string)
    (prev : gmap string Progress) :
  addressee (Event e) <> Some j ->
  handleStreamEvent e prev !! j = prev !! j.
Proof.
  destruct e; simpl; try done.
  intros Hne. apply lookup_insert_ne. congruence.
Qed.

(** One event extends the stdout of a call by what it delivers to it. *)
Lemma handleStreamEvent_stdout (e : StreamEvent) (id : string)
    (prev : gmap string Progress) :
  prevStdout (handleStreamEvent e prev) id
  = prevStdout prev id +:+ concat_strings (delivered id Stdout e).
Proof.
  destruct e as [| | | |id' u|]; simpl; try by rewrite string_app_nil_r.
  destruct (decide (id' = id)) as [->|Hne].
  - unfold prevStdout at 1. rewrite lookup_insert_eq. simpl.
    destruct (decide (type u = Stdout)); simpl; [|done].
    by rewrite string_app_nil_r.
  - unfold prevStdout at 1. rewrite lookup_insert_ne by done.
    fold (prevStdout prev id). simpl. by rewrite string_app_nil_r.
Qed.

(** Likewise for stderr. *)
Lemma handleStreamEvent_stderr (e : StreamEvent) (id : string)
    (prev : gmap string Progress) :
  prevStderr (handleStreamEvent e prev) id
  = prevStderr prev id +:+ concat_strings (delivered id Stderr e).
Proof.
  destruct e as [| | | |id' u|]; simpl; try by rewrite string_app_nil_r.
  destruct (decide (id' = id)) as [->|Hne].
  - unfold prevStderr at 1. rewrite lookup_insert_eq. simpl.
    destruct (decide (type u = Stderr)); simpl; [|done].
    by rewrite string_app_nil_r.
  - unfold prevStderr at 1. rewrite lookup_insert_ne by done.
    fold (prevStderr prev id). simpl. by rewrite string_app_nil_r.
Qed.

Lemma handleAll_stdout (events : list StreamEvent) (id : string)
    (prev : gmap string Progress) :
  prevStdout (handleAll events prev) id
  = prevStdout prev id +:+ concat_strings (deliveredAll id Stdout events).
Proof.
  induction events as [|e events IH] using rev_ind.
  - simpl. by rewrite string_app_nil_r.
  - rewrite handleAll_snoc, handleStreamEvent_stdout, IH.
    unfold deliveredAll. rewrite bind_app, concat_strings_app.
    rewrite string_app_assoc. simpl. by rewrite app_nil_r.
Qed.

Lemma handleAll_stderr (events : list StreamEvent) (id : string)
    (prev : gmap string Progress) :
  prevStderr (handleAll events prev) id
  = prevStderr prev id +:+ concat_strings (deliveredAll id Stderr events).
Proof.
  induction events as [|e events IH] using rev_ind.
  - simpl. by rewrite string_app_nil_r.
  - rewrite handleAll_snoc, handleStreamEvent_stderr, IH.
    unfold deliveredAll. rewrite bind_app, concat_strings_app.
    rewrite string_app_assoc. simpl. by rewrite app_nil_r.
Qed.

(** What a message does to a call depends on the entry of that call
    only. *)
Lemma deliver_local (m : Message) (j : string)
    (prev1 prev2 : gmap string Progress) :
  prev1 !! j = prev2 !! j ->
  deliver m prev1 !! j = deliver m prev2 !! j.
Proof.
  intros Heq. destruct m as [e|id]; simpl.
  - destruct e as [| | | |id u|]; simpl; try done.
    destruct (decide (id = j)) as [->|Hne].
    + rewrite !lookup_insert_eq. unfold prevStdout, prevStderr.
      by rewrite Heq.
    + by rewrite !lookup_insert_ne.
  - unfold handleToolResult. destruct (decide (id = j)) as [->|Hne].
    + by rewrite !lookup_delete_eq.
    + by rewrite !lookup_delete_ne.
Qed.

(** A message leaves alone every call it is not addressed to. *)
Lemma deliver_other (m : Message) (j : string) (prev : gmap string Progress) :
  addressee m <> Some j ->
  deliver m prev !! j = prev !! j.
Proof.
  destruct m as [e|id]; simpl.
  - apply handleStreamEvent_other.
  - intros Hne. apply lookup_delete_ne. congruence.
Qed.

(** The state of a call is what the messages addressed to it make it. *)
Lemma deliverAll_own (ms : list Message) (j : string)
    (prev : gmap string Progress) :
  deliverAll ms prev !! j
  = deliverAll (filter (fun m => addressee m = Some j) ms) prev !! j.
Proof.
  induction ms as [|m ms IH] using rev_ind; [done|].
  rewrite filter_app, deliverAll_snoc.
  destruct (decide (addressee m = Some j)) as [Heq|Hne].
  - rewrite filter_cons_True by done. rewrite filter_nil.
    rewrite deliverAll_snoc. by apply deliver_local.
  - rewrite filter_cons_False by done. rewrite filter_nil, app_nil_r.
    by rewrite deliver_other.
Qed.

(** C2: after every state update, the stdout held for a call is the
    concatenation, in delivery order, of the contents of the stdout
    progress events delivered for that call so far, and likewise for
    stderr. The hook has no cap of its own, so the equality is exact. The
    state is followed from the empty initial state of the hook through
    every prefix [take n events] of the delivered events. *)
Theorem accumulated_equals_delivered
    (events : list StreamEvent) (n : nat) (id : string) :
  prevStdout (handleAll (take n events) ∅) id
    = concat_strings (deliveredAll id Stdout (take n events))
  /\ prevStderr (handleAll (take n events) ∅) id
    = concat_strings (deliveredAll id Stderr (take n events)).
Proof.
  split.
  - rewrite handleAll_stdout. unfold prevStdout. by rewrite lookup_empty.
  - rewrite handleAll_stderr. unfold prevStderr. by rewrite lookup_empty.
Qed.

(** C3, as stated, fails: the state of a call has no status field. Two
    status updates with different contents leave the same state behind,
    the one that was there before, so no reading of the state can give
    back the status. *)
Lemma status_is_not_recorded :
  handleStreamEvent
    (ToolProgress "call-1"
       {| toolCallId := "call-1"; type := Status;
          content := "compiling"; timestamp := 0 |})
    {[ "call-1" := {| stdout := "out"; stderr := "" |} ]}
  = {[ "call-1" := {| stdout := "out"; stderr := "" |} ]}
  /\ ~ (exists status : Progress -> string,
          forall u : ToolProgressUpdate, type u = Status ->
            exists p : Progress,
              handleStreamEvent (ToolProgress "call-1" u)
                {[ "call-1" := {| stdout := "out"; stderr := "" |} ]}
                !! "call-1" = Some p
              /\ status p = content u).
Proof.
  split.
  - simpl. apply insert_id. by rewrite lookup_singleton_eq.
  - intros (status & Hstatus).
    destruct (Hstatus {| toolCallId := "call-1"; type := Status;
                         content := "compiling"; timestamp := 0 |} eq_refl)
      as (p1 & Hp1 & Hs1).
    destruct (Hstatus {| toolCallId := "call-1"; type := Status;
                         content := "done"; timestamp := 1 |} eq_refl)
      as (p2 & Hp2 & Hs2).
    rewrite handleStreamEvent_lookup in Hp1, Hp2. simpl in *.
    congruence.
Qed.

(** C3 (amended): for a known call, a stdout update appends its content to
    the stdout of the call, a stderr update appends its content to the
    stderr of the call, and a status update leaves the state as it is. *)
Theorem progress_appends_to_matching_channel
    (prev : gmap string Progress) (id : string) (p : Progress)
    (u : ToolProgressUpdate) (Hknown : prev !! id = Some p) :
  handleStreamEvent (ToolProgress id u) prev
  = match type u with
    | Stdout =>
        <[ id := {| stdout := stdout p +:+ content u; stderr := stderr p |} ]> prev
    | Stderr =>
        <[ id := {| stdout := stdout p; stderr := stderr p +:+ content u |} ]> prev
    | Status => prev
    end.
Proof.
  simpl. unfold prevStdout, prevStderr. rewrite Hknown.
  destruct (type u); simpl; rewrite ?string_app_nil_r; try done.
  apply insert_id. rewrite Hknown. by destruct p.
Qed.

(** A stderr update for a known call. *)
Lemma progress_appends_to_matching_channel_witness :
  handleStreamEvent
    (ToolProgress "call-1"
       {| toolCallId := "call-1"; type := Stderr;
          content := "warning"; timestamp := 7 |})
    {[ "call-1" := {| stdout := "out"; stderr := "" |} ]}
  = <[ "call-1" := {| stdout := "out"; stderr := "warning" |} ]>
      {[ "call-1" := {| stdout := "out"; stderr := "" |} ]}.
Proof.
  apply (progress_appends_to_matching_channel
           {[ "call-1" := {| stdout := "out"; stderr := "" |} ]}
           "call-1" {| stdout := "out"; stderr := "" |}
           {| toolCallId := "call-1"; type := Stderr;
              content := "warning"; timestamp := 7 |}).
  vm_compute. reflexivity.
Defined.

(** C4, as stated, fails: a progress event for a call the state does not
    know creates the entry of that call. *)
Lemma unknown_progress_creates_entry :
  (∅ : gmap string Progress) !! "ghost" = None
  /\ handleStreamEvent
       (ToolProgress "ghost"
          {| toolCallId := "ghost"; type := Stdout;
             content := "x"; timestamp := 0 |}) ∅ !! "ghost"
     = Some {| stdout := "x"; stderr := "" |}
  /\ handleStreamEvent
       (ToolProgress "ghost"
          {| toolCallId := "ghost"; type := Stdout;
             content := "x"; timestamp := 0 |}) ∅ <> ∅.
Proof.
  split; [apply lookup_empty|]. split.
  - rewrite handleStreamEvent_lookup. unfold prevStdout, prevStderr.
    by rewrite lookup_empty.
  - simpl. apply insert_non_empty.
Qed.

(** C4 (amended): for a call the state does not know, [handleToolResult]
    leaves the state as it is, while a progress event creates the entry of
    the call, holding the content of the event on its channel and nothing
    else; every other call keeps its entry. Both handlers are total: no
    failure is raised, and nothing is reported. *)
Theorem unknown_call_handling
    (prev : gmap string Progress) (id : string) (u : ToolProgressUpdate)
    (Hunknown : prev !! id = None) :
  handleToolResult id prev = prev
  /\ handleStreamEvent (ToolProgress id u) prev
     = <[ id := {| stdout := if decide (type u = Stdout) then content u else "";
                   stderr := if decide (type u = Stderr) then content u else "" |} ]>
         prev.
Proof.
  split.
  - by apply delete_id.
  - simpl. unfold prevStdout, prevStderr. by rewrite Hunknown.
Qed.

(** A completion for a call the state does not hold. *)
Lemma unknown_call_handling_witness :
  handleToolResult "ghost" {[ "call-1" := {| stdout := "out"; stderr := "" |} ]}
  = {[ "call-1" := {| stdout := "out"; stderr := "" |} ]}.
Proof.
  apply (unknown_call_handling
           {[ "call-1" := {| stdout := "out"; stderr := "" |} ]} "ghost"
           {| toolCallId := "ghost"; type := Stdout;
              content := "x"; timestamp := 0 |}).
  vm_compute. reflexivity.
Defined.

(** C5: completing a call a second time changes nothing: the state after
    the second [handleToolResult] is the state after the first, so every
    field of every call reads the same. *)
Theorem complete_is_idempotent (prev : gmap string Progress) (id : string) :
  handleToolResult id (handleToolResult id prev) = handleToolResult id prev.
Proof. unfold handleToolResult. apply delete_delete_eq. Qed.

(** C9: a progress event or a completion addressed to one call leaves the
    entry of every other call as it was. After any interleaving of
    messages, the entry of a call is what the messages addressed to that
    call alone, in their delivery order, make it; and after any
    interleaving of events, the stdout (stderr) of a call has grown by
    the stdout (stderr) contents delivered for that call, in their
    delivery order, and by nothing else. *)
Theorem calls_are_isolated
    (m : Message) (ms : list Message) (events : list StreamEvent)
    (prev : gmap string Progress) (j : string)
    (Hother : addressee m <> Some j) :
  deliver m prev !! j = prev !! j
  /\ deliverAll ms prev !! j
     = deliverAll (filter (fun m' => addressee m' = Some j) ms) prev !! j
  /\ prevStdout (handleAll events prev) j
     = prevStdout prev j +:+ concat_strings (deliveredAll j Stdout events)
  /\ prevStderr (handleAll events prev) j
     = prevStderr prev j +:+ concat_strings (deliveredAll j Stderr events).
Proof.
  split; [by apply deliver_other|].
  split; [apply deliverAll_own|].
  split; [apply handleAll_stdout | apply handleAll_stderr].
Qed.

(** Two calls: completing the first leaves the second as it was. *)
Lemma calls_are_isolated_witness :
  deliver (Completed "call-1")
    {[ "call-2" := {| stdout := "two"; stderr := "" |} ]} !! "call-2"
  = Some {| stdout := "two"; stderr := "" |}.
Proof.
  destruct (calls_are_isolated (Completed "call-1") [] []
              {[ "call-2" := {| stdout := "two"; stderr := "" |} ]} "call-2")
    as [Hframe _].
  - simpl. discriminate.
  - rewrite Hframe. vm_compute. reflexivity.
Defined.

(** Two calls running side by side: each keeps its own content. *)
Example concurrent_calls_do_not_mix :
  handleAll
    [ ToolProgress "call-1" {| toolCallId := "call-1"; type := Stdout;
                               content := "a1"; timestamp := 1 |};
      ToolProgress "call-2" {| toolCallId := "call-2"; type := Stdout;
                               content := "b1"; timestamp := 2 |};
      ToolProgress "call-1" {| toolCallId := "call-1"; type := Stderr;
                               content := "e1"; timestamp := 3 |};
      ToolProgress "call-2" {| toolCallId := "call-2"; type := Stdout;
                               content := "b2"; timestamp := 4 |};
      ToolProgress "call-1" {| toolCallId := "call-1"; type := Stdout;
                               content := "a2"; timestamp := 5 |} ] ∅
  = {[ "call-1" := {| stdout := "a1a2"; stderr := "e1" |};
       "call-2" := {| stdout := "b1b2"; stderr := "" |} ]}.
Proof. by vm_compute. Qed.

End ChatSpec.

(** ** The abort listener *)

Module AbortSpec.
Import Abort.

Lemma abort_run_cons (e : Event) (es : list Event) (l : Loop) :
  run (e :: es) l = run es (step e l).
Proof. reflexivity. Qed.

(** The listener asks a running child to terminate and arms a timer of
    5000 ms. *)
Lemma abort_sends_sigterm (l : Loop) :
  running (child l) = true ->
  received (child (onAbort l)) = received (child l) ++ [SIGTERM]
  /\ timers (onAbort l) = timers l ++ [5000%Z].
Proof. intros Hrun. unfold onAbort, kill. simpl. by rewrite Hrun. Qed.

(** Once Node has seen the child exit, neither the listener nor its timer
    sends anything. *)
Lemma nothing_delivered_after_exit (es : list Event) (l : Loop) :
  running (child l) = false ->
  running (child (run es l)) = false
  /\ received (child (run es l)) = received (child l).
Proof.
  revert l. induction es as [|e es IH]; intros l Hrun; [done|].
  rewrite abort_run_cons.
  assert (Hstep : running (child (step e l)) = false
                  /\ received (child (step e l)) = received (child l)).
  { destruct e; simpl.
    - unfold kill. by rewrite Hrun.
    - destruct (timers l); [done|]. simpl.
      unfold onTimer, kill. rewrite Hrun. by destruct (killed (child l)).
    - done. }
  destruct Hstep as [Hrun' Hrecv'].
  destruct (IH _ Hrun') as [? ?]. split; [done|congruence].
Qed.

(** Once [killed] is set, no timer sends [SIGKILL], whatever the child
    does. *)
Lemma no_escalation_once_killed (es : list Event) (l : Loop) :
  killed (child l) = true ->
  SIGKILL ∉ received (child l) ->
  SIGKILL ∉ received (child (run es l)).
Proof.
  revert l. induction es as [|e es IH]; intros l Hk Hnot; [done|].
  rewrite abort_run_cons. apply IH.
  - destruct e; simpl.
    + unfold kill. by destruct (running (child l)).
    + destruct (timers l); [done|]. simpl. unfold onTimer. by rewrite Hk.
    + done.
  - destruct e; simpl.
    + unfold kill. destruct (running (child l)); [|done]. simpl.
      rewrite elem_of_app, list_elem_of_singleton. intros [?|?]; done.
    + destruct (timers l); [done|]. simpl. unfold onTimer. by rewrite Hk.
    + done.
Qed.

(** A child that runs when the signal aborts never receives [SIGKILL]. *)
Lemma running_child_is_never_forced (es : list Event) (l : Loop) :
  running (child l) = true ->
  SIGKILL ∉ received (child l) ->
  SIGKILL ∉ received (child (run (Aborted :: es) l)).
Proof.
  intros Hrun Hnot. rewrite abort_run_cons. apply no_escalation_once_killed.
  - simpl. unfold kill. by rewrite Hrun.
  - simpl. unfold kill. rewrite Hrun. simpl.
    rewrite elem_of_app, list_elem_of_singleton. intros [?|?]; done.
Qed.

(** C6: the signal aborts while the child runs, the child ignores
    [SIGTERM], and the timer fires: the child still runs, and the only
    signal it has received is [SIGTERM]. The successful [kill('SIGTERM')]
    has set [child.killed], which is what the timer tests. *)
Theorem grace_timer_sends_no_sigkill :
  run [Aborted; TimerFired] spawned
  = {| child := {| running := true; killed := true; received := [SIGTERM] |};
       timers := [] |}.
Proof. reflexivity. Qed.

End AbortSpec.

(** ** The throttler *)

Module ThrottlerSpec.
Import Throttler.






(** *** Each operation, seen from one channel *)








(** *** Sequences of updates that are on time *)






(** *** The timer, seen from its channel *)



(** *** An arrival, seen from one channel *)






(** *** A run, seen from one channel *)





(** *** Nothing is lost *)

















(** The scenario of the specification: ["a"], then ["b"] 250 ms later.
    The timer sends ["a"] when the first window closes; ["b"] finds the
    window closed and leaves at once. *)
Example two_windows :
  session 0 [Raw Stdout "a" 0; Raw Stdout "b" 250] 260
  = [ Progress {| kind := Stdout; content := "a"; timestamp := 100 |};
      Progress {| kind := Stdout; content := "b"; timestamp := 250 |};
      TerminalResult ].
Proof. reflexivity. Qed.

(** A chunk followed by a long silence leaves when its window closes, not
    at the completion. *)
Example long_silence :
  session 0 [Raw Stdout "a" 0] 10000
  = [ Progress {| kind := Stdout; content := "a"; timestamp := 100 |};
      TerminalResult ].
Proof. reflexivity. Qed.

(** Chunks in quick succession leave together when the window closes. *)
Example coalesced :
  session 0 [Raw Stdout "a" 10; Raw Stdout "b" 40; Raw Stdout "c" 90;
             Raw Stdout "d" 130] 300
  = [ Progress {| kind := Stdout; content := "abc"; timestamp := 100 |};
      Progress {| kind := Stdout; content := "d"; timestamp := 200 |};
      TerminalResult ].
Proof. reflexivity. Qed.

(** A command that completes within the first window: no intermediate
    update, the whole output leaves with the final flush. *)
Example fast_command :
  session 0 [Raw Stdout "a" 10; Raw Stderr "e" 15; Raw Stdout "b" 20] 30
  = [ Progress {| kind := Stdout; content := "ab"; timestamp := 30 |};
      Progress {| kind := Stderr; content := "e"; timestamp := 30 |};
      TerminalResult ].
Proof. reflexivity. Qed.

(** A chunk of 4 KB leaves at its arrival, before the window closes. *)
Example size_window_full :
  session 0 [Raw Stdout "a" 5; Raw Stdout (Nat.iter 4095 (String "x") "") 10] 20
  = [ Progress {| kind := Stdout;
                  content := String "a" (Nat.iter 4095 (String "x") "");
                  timestamp := 10 |};
      TerminalResult ].
Proof. vm_compute. reflexivity. Qed.


End ThrottlerSpec.

(** ** Completion *)

Module CompletionSpec.
Import Completion.

Lemma execute_app (es fs : list Event) :
  execute (es ++ fs) = foldl (fun p e => step e p) (execute es) fs.
Proof. unfold execute. apply foldl_app. Qed.

(** A settled execution stays as it is. *)
Lemma settled_is_final (es : list Event) (s : Settlement) :
  foldl (fun p e => step e p) (Settled s) es = Settled s.
Proof. induction es as [|e es IH]; [done|]. simpl. apply IH. Qed.

(** Without a terminal event the execution keeps running and remembers
    the first request for termination. *)
Lemma running_until_terminal (es : list Event) (requested : option Cause) :
  Forall pending es ->
  foldl (fun p e => step e p) (Running requested) es
  = Running (match requested with
             | Some c => Some c
             | None => firstRequest es
             end).
Proof.
  intros Hall. revert requested.
  induction Hall as [|e es He Hall IH]; intros requested.
  - by destruct requested.
  - destruct e; try discriminate He; simpl; rewrite IH;
      by destruct requested.
Qed.

(** Every trace either has no terminal event or splits at its first
    one. *)
Lemma first_terminal (es : list Event) :
  Forall pending es
  \/ exists pre t post,
       es = pre ++ t :: post /\ Forall pending pre /\ terminal t = true.
Proof.
  induction es as [|e es IH]; [by left|].
  destruct (terminal e) eqn:He.
  - right. exists [], e, es. by repeat split.
  - destruct IH as [Hall|(pre & t & post & -> & Hpre & Ht)].
    + left. by constructor.
    + right. exists (e :: pre), t, post. repeat split; [|done].
      by constructor.
Qed.

Lemma execute_exit (pre post : list Event) (code : Z) :
  Forall pending pre ->
  execute (pre ++ ProcessExited code :: post)
  = Settled (Resolved {| exitCode := Some code;
                         outcome := outcomeFor (firstRequest pre) |}).
Proof.
  intros Hpre. rewrite execute_app. unfold execute.
  rewrite running_until_terminal by done. simpl.
  by rewrite settled_is_final.
Qed.

Lemma execute_spawn_failure (pre post : list Event) (reason : string) :
  Forall pending pre ->
  execute (pre ++ SpawnFailed reason :: post)
  = Settled (Resolved {| exitCode := None; outcome := Error |}).
Proof.
  intros Hpre. rewrite execute_app. unfold execute.
  rewrite running_until_terminal by done. simpl.
  by rewrite settled_is_final.
Qed.

(** C8: the eventual value never settles by throwing. It has outcome
    [Error] exactly when the first terminal event is a spawn failure. When
    the first terminal event is the exit of the process, the result
    carries the exit code, whatever it is, and the outcome is [Success]
    if no termination was requested before, [Cancelled] if the first
    request was a cancellation and [Timeout] if it was the timeout. *)
Theorem outcome_follows_termination_cause (es : list Event) :
  (forall reason, execute es <> Settled (Thrown reason))
  /\ (outcomeOf (execute es) = Some Error <->
      exists pre reason post,
        es = pre ++ SpawnFailed reason :: post /\ Forall pending pre)
  /\ (forall pre code post,
        es = pre ++ ProcessExited code :: post -> Forall pending pre ->
        execute es
        = Settled (Resolved
            {| exitCode := Some code;
               outcome := match firstRequest pre with
                          | None => Success
                          | Some External => Cancelled
                          | Some TimedOut => Timeout
                          end |})).
Proof.
  split; [|split].
  - intros reason.
    destruct (first_terminal es) as [Hall|(pre & t & post & -> & Hpre & Ht)].
    + unfold execute. by rewrite running_until_terminal.
    + destruct t; try discriminate Ht.
      * by rewrite execute_spawn_failure.
      * by rewrite execute_exit.
  - split.
    + intros Hout.
      destruct (first_terminal es) as [Hall|(pre & t & post & -> & Hpre & Ht)].
      * unfold execute in Hout. by rewrite running_until_terminal in Hout.
      * destruct t; try discriminate Ht.
        -- by exists pre, reason, post.
        -- rewrite execute_exit in Hout by done. simpl in Hout.
           by destruct (firstRequest pre) as [[]|].
    + intros (pre & reason & post & -> & Hpre).
      by rewrite execute_spawn_failure.
  - intros pre code post -> Hpre. by apply execute_exit.
Qed.

(** A process that exits with a non-zero code on its own. *)
Example non_zero_exit_is_success :
  execute [Output; Output; ProcessExited 2]
  = Settled (Resolved {| exitCode := Some 2%Z; outcome := Success |}).
Proof. reflexivity. Qed.

(** A process that exits after the timeout asked for its termination. *)
Example exit_after_timeout :
  execute [Output; TimeoutElapsed; CancelTriggered; ProcessExited 143]
  = Settled (Resolved {| exitCode := Some 143%Z; outcome := Timeout |}).
Proof. reflexivity. Qed.

End CompletionSpec.

(** ** The executor: the cap, channel by channel *)

Module ExecutorCap.
Import Executor.

(** What a [data] event does to the accumulator of a channel. *)
Lemma onData_acc {W : Type} (maxBuffer : Z) (cb : option (Update -> W -> W))
    (e : DataEvent) (s : State W) (c : Channel) :
  acc c (onData maxBuffer cb e s)
  = if decide (type (arrival e) = c) then
      if fits maxBuffer (acc c s) (content (arrival e))
      then acc c s +:+ content (arrival e) else acc c s
    else acc c s.
Proof.
  destruct (decide (type (arrival e) = c)) as [<-|Hne].
  - destruct (fits maxBuffer (acc (type (arrival e)) s) (content (arrival e)))
      eqn:Hfit.
    + by destruct (ExecutorSpec.onData_fits maxBuffer cb e s Hfit) as (-> & _).
    + by rewrite ExecutorSpec.onData_overflow.
  - destruct (fits maxBuffer (acc (type (arrival e)) s) (content (arrival e)))
      eqn:Hfit.
    + destruct (ExecutorSpec.onData_fits maxBuffer cb e s Hfit) as (_ & Ho & _).
      by apply Ho.
    + by rewrite ExecutorSpec.onData_overflow.
Qed.

(** The accumulator of a channel after a run is decided by what it held
    before and by the chunks of that channel. *)
Lemma run_acc_local {W1 W2 : Type} (maxBuffer : Z)
    (cb1 : option (Update -> W1 -> W1)) (cb2 : option (Update -> W2 -> W2))
    (es : list DataEvent) (s1 : State W1) (s2 : State W2) (c : Channel) :
  acc c s1 = acc c s2 ->
  acc c (run maxBuffer cb1 es s1)
  = acc c (run maxBuffer cb2 (filter (fun e => type (arrival e) = c) es) s2).
Proof.
  intros Heq. induction es as [|e es IH] using rev_ind; [done|].
  rewrite filter_app, ExecutorSpec.run_snoc, onData_acc.
  destruct (decide (type (arrival e) = c)) as [Hc|Hc].
  - rewrite filter_cons_True by done. rewrite filter_nil.
    rewrite ExecutorSpec.run_snoc, onData_acc, decide_True by done.
    by rewrite IH.
  - rewrite filter_cons_False by done. by rewrite filter_nil, app_nil_r.
Qed.

Lemma chunksOf_snoc (c : Channel) (es : list DataEvent) (e : DataEvent) :
  chunksOf c (es ++ [e])
  = chunksOf c es
    ++ (if decide (type (arrival e) = c) then [content (arrival e)] else []).
Proof.
  unfold chunksOf, contentsOf. rewrite fmap_app, filter_app, fmap_app.
  f_equal. simpl. destruct (decide (type (arrival e) = c)).
  - by rewrite filter_cons_True.
  - by rewrite filter_cons_False.
Qed.

(** X1: the stored output does not depend on the progress callback:
    with any callback or with none, acting on anything, the accumulators
    end up the same. *)
Theorem stored_output_ignores_callback {W1 W2 : Type} (maxBuffer : Z)
    (cb1 : option (Update -> W1 -> W1)) (cb2 : option (Update -> W2 -> W2))
    (es : list DataEvent) (w1 : W1) (w2 : W2) (c : Channel) :
  acc c (executeCommand maxBuffer cb1 es w1)
  = acc c (executeCommand maxBuffer cb2 es w2).
Proof.
  unfold executeCommand.
  rewrite (run_acc_local maxBuffer cb1 cb2 es (init w1) (init w2)) by by destruct c.
  symmetry. by apply run_acc_local.
Qed.

(** X2: the cap is per channel: what stdout stores is what it would store
    if stderr had produced nothing, and the other way round. *)
Theorem cap_is_per_channel {W : Type} (maxBuffer : Z)
    (cb : option (Update -> W -> W)) (es : list DataEvent) (w : W)
    (c : Channel) :
  acc c (executeCommand maxBuffer cb es w)
  = acc c (executeCommand maxBuffer cb
             (filter (fun e => type (arrival e) = c) es) w).
Proof. unfold executeCommand. by apply run_acc_local. Qed.

(** X3: while the whole output of a channel fits under [maxBuffer],
    nothing of it is dropped: the accumulator is the concatenation of all
    its chunks, and the callback has received every one of them, once, in
    order. *)
Theorem under_cap_nothing_is_dropped (maxBuffer : Z)
    (es : list DataEvent) (c : Channel)
    (Hroom : (Z.of_nat (String.length (concat_strings (chunksOf c es)))
                <= maxBuffer)%Z) :
  acc c (executeCommand maxBuffer record es []) = concat_strings (chunksOf c es)
  /\ contentsOf c (world (executeCommand maxBuffer record es []))
     = chunksOf c es.
Proof.
  unfold executeCommand.
  induction es as [|e es IH] using rev_ind.
  - split; [by destruct c | done].
  - rewrite chunksOf_snoc, concat_strings_app, string_length_app in Hroom.
    destruct IH as [IHacc IHlog]; [lia|].
    rewrite ExecutorSpec.run_snoc, chunksOf_snoc.
    set (s := run maxBuffer record es (init [])) in *.
    destruct (decide (type (arrival e) = c)) as [<-|Hne].
    + assert (Hfit : fits maxBuffer (acc (type (arrival e)) s)
                       (content (arrival e)) = true).
      { unfold fits. apply Z.leb_le. rewrite IHacc.
        simpl in Hroom. rewrite string_app_nil_r in Hroom. lia. }
      destruct (ExecutorSpec.onData_fits maxBuffer record e s Hfit)
        as (-> & _ & ->).
      split.
      * rewrite IHacc, concat_strings_app. simpl.
        by rewrite string_app_nil_r.
      * simpl. unfold contentsOf in *.
        rewrite filter_app, fmap_app, IHlog.
        by rewrite filter_cons_True.
    + rewrite onData_acc, decide_False by done.
      rewrite app_nil_r. split; [done|].
      destruct (fits maxBuffer (acc (type (arrival e)) s) (content (arrival e)))
        eqn:Hfit.
      * destruct (ExecutorSpec.onData_fits maxBuffer record e s Hfit)
          as (_ & _ & ->).
        simpl. unfold contentsOf in *.
        rewrite filter_app, fmap_app, IHlog.
        rewrite filter_cons_False by done. by rewrite app_nil_r.
      * by rewrite ExecutorSpec.onData_overflow.
Qed.

(** Two chunks on stdout and one on stderr, all under the cap. *)
Lemma under_cap_nothing_is_dropped_witness :
  acc Stdout
    (executeCommand 5 record
       [StdoutData "ab"; StderrData "warn"; StdoutData "cde"] [])
  = concat_strings ["ab"; "cde"].
Proof.
  destruct (under_cap_nothing_is_dropped 5
              [StdoutData "ab"; StderrData "warn"; StdoutData "cde"] Stdout)
    as [Hacc _].
  - vm_compute. discriminate.
  - exact Hacc.
Defined.

(** X4: once the accumulator of a channel has reached [maxBuffer], it
    never changes again, whatever arrives. *)
Theorem full_accumulator_is_frozen {W : Type} (maxBuffer : Z)
    (cb : option (Update -> W -> W)) (es : list DataEvent) (s : State W)
    (c : Channel)
    (Hfull : (maxBuffer <= Z.of_nat (String.length (acc c s)))%Z) :
  acc c (run maxBuffer cb es s) = acc c s.
Proof.
  induction es as [|e es IH] using rev_ind; [done|].
  rewrite ExecutorSpec.run_snoc, onData_acc, IH.
  destruct (decide (type (arrival e) = c)); [|done].
  destruct (fits maxBuffer (acc c s) (content (arrival e))) eqn:Hfit; [|done].
  unfold fits in Hfit. apply Z.leb_le in Hfit.
  destruct (content (arrival e)) as [|a rest].
  - by rewrite string_app_nil_r.
  - simpl in Hfit. lia.
Qed.

(** With [maxBuffer = 3], ["abc"] fills stdout and ["d"] is lost. *)
Lemma full_accumulator_is_frozen_witness :
  acc Stdout
    (run 3 record [StdoutData "d"; StderrData "e"; StdoutData ""]
       (executeCommand 3 record [StdoutData "abc"] []))
  = "abc".
Proof.
  apply (full_accumulator_is_frozen 3 record
           [StdoutData "d"; StderrData "e"; StdoutData ""]
           (executeCommand 3 record [StdoutData "abc"] []) Stdout).
  vm_compute. discriminate.
Defined.

(** X5: the accumulators are append-only: what a channel holds at any
    moment is a prefix of what it holds at any later moment. *)
Theorem accumulator_is_append_only {W : Type} (maxBuffer : Z)
    (cb : option (Update -> W -> W)) (es1 es2 : list DataEvent) (w : W)
    (c : Channel) :
  exists more : string,
    acc c (executeCommand maxBuffer cb (es1 ++ es2) w)
    = acc c (executeCommand maxBuffer cb es1 w) +:+ more.
Proof.
  unfold executeCommand.
  induction es2 as [|e es2 IH] using rev_ind.
  - exists "". by rewrite app_nil_r, string_app_nil_r.
  - destruct IH as (more & IH).
    rewrite app_assoc, ExecutorSpec.run_snoc, onData_acc.
    destruct (decide (type (arrival e) = c)); [|by exists more].
    destruct (fits _ _ _); [|by exists more].
    exists (more +:+ content (arrival e)).
    by rewrite IH, string_app_assoc.
Qed.

(** X6: with a negative [maxBuffer] nothing is ever stored and the
    callback is never invoked, not even for an empty chunk. *)
Theorem negative_cap_keeps_nothing {W : Type} (maxBuffer : Z)
    (cb : option (Update -> W -> W)) (es : list DataEvent) (w : W)
    (Hneg : (maxBuffer < 0)%Z) :
  executeCommand maxBuffer cb es w = init w.
Proof.
  unfold executeCommand.
  induction es as [|e es IH] using rev_ind; [done|].
  rewrite ExecutorSpec.run_snoc, IH.
  apply ExecutorSpec.onData_overflow.
  unfold fits. apply Z.leb_gt. lia.
Qed.

Lemma negative_cap_keeps_nothing_witness :
  executeCommand (-1) record [StdoutData ""; StderrData "x"] [] = init [].
Proof.
  apply (negative_cap_keeps_nothing (-1) record
           [StdoutData ""; StderrData "x"] []).
  lia.
Defined.

End ExecutorCap.

(** ** The progress state of the chat hook: order, batching and cleanup *)

Module ChatLifecycle.
Import Chat.

Lemma prevStdout_insert_ne (prev : gmap string Progress) (i j : string)
    (p : Progress) :
  i <> j -> prevStdout (<[ i := p ]> prev) j = prevStdout prev j.
Proof. intros Hne. unfold prevStdout. by rewrite lookup_insert_ne. Qed.

Lemma prevStderr_insert_ne (prev : gmap string Progress) (i j : string)
    (p : Progress) :
  i <> j -> prevStderr (<[ i := p ]> prev) j = prevStderr prev j.
Proof. intros Hne. unfold prevStderr. by rewrite lookup_insert_ne. Qed.

Lemma prevStdout_insert_eq (prev : gmap string Progress) (i : string)
    (p : Progress) :
  prevStdout (<[ i := p ]> prev) i = stdout p.
Proof. unfold prevStdout. by rewrite lookup_insert_eq. Qed.

Lemma prevStderr_insert_eq (prev : gmap string Progress) (i : string)
    (p : Progress) :
  prevStderr (<[ i := p ]> prev) i = stderr p.
Proof. unfold prevStderr. by rewrite lookup_insert_eq. Qed.

Lemma prevStdout_delete_ne (prev : gmap string Progress) (i j : string) :
  i <> j -> prevStdout (delete i prev) j = prevStdout prev j.
Proof. intros Hne. unfold prevStdout. by rewrite lookup_delete_ne. Qed.

Lemma prevStderr_delete_ne (prev : gmap string Progress) (i j : string) :
  i <> j -> prevStderr (delete i prev) j = prevStderr prev j.
Proof. intros Hne. unfold prevStderr. by rewrite lookup_delete_ne. Qed.

(** X7: messages addressed to different calls commute: the state does
    not depend on how the events of concurrent calls interleave. *)
Theorem messages_of_different_calls_commute
    (m1 m2 : Message) (prev : gmap string Progress)
    (Hdiff : addressee m1 <> addressee m2) :
  deliver m1 (deliver m2 prev) = deliver m2 (deliver m1 prev).
Proof.
  destruct m1 as [e1|id1], m2 as [e2|id2]; simpl in *.
  - destruct e1 as [| | | |id1 u1|], e2 as [| | | |id2 u2|]; simpl in *;
      try done.
    assert (Hne : id1 <> id2) by congruence.
    rewrite !prevStdout_insert_ne, !prevStderr_insert_ne by done.
    by apply insert_insert_ne.
  - destruct e1 as [| | | |id1 u1|]; simpl in *; try done.
    assert (Hne : id2 <> id1) by congruence.
    unfold handleToolResult.
    rewrite prevStdout_delete_ne, prevStderr_delete_ne by done.
    symmetry. by apply delete_insert_ne.
  - destruct e2 as [| | | |id2 u2|]; simpl in *; try done.
    assert (Hne : id1 <> id2) by congruence.
    unfold handleToolResult.
    rewrite prevStdout_delete_ne, prevStderr_delete_ne by done.
    by apply delete_insert_ne.
  - unfold handleToolResult. apply delete_delete.
Qed.

(** A stdout chunk of one call and the completion of another. *)
Lemma messages_of_different_calls_commute_witness :
  deliver
    (Event (ToolProgress "call-1"
              {| toolCallId := "call-1"; type := Stdout;
                 content := "a"; timestamp := 1 |}))
    (deliver (Completed "call-2")
       {[ "call-2" := {| stdout := "b"; stderr := "" |} ]})
  = deliver (Completed "call-2")
      (deliver
         (Event (ToolProgress "call-1"
                   {| toolCallId := "call-1"; type := Stdout;
                      content := "a"; timestamp := 1 |}))
         {[ "call-2" := {| stdout := "b"; stderr := "" |} ]}).
Proof.
  apply (messages_of_different_calls_commute
           (Event (ToolProgress "call-1"
                     {| toolCallId := "call-1"; type := Stdout;
                        content := "a"; timestamp := 1 |}))
           (Completed "call-2")
           {[ "call-2" := {| stdout := "b"; stderr := "" |} ]}).
  simpl. discriminate.
Defined.

(** X8: batching is invisible to the hook: two consecutive progress
    events of one call and one type leave the state that a single event
    carrying both contents, one after the other, leaves. *)
Theorem consecutive_progress_coalesces
    (id : string) (u1 u2 u : ToolProgressUpdate) (prev : gmap string Progress)
    (Htype1 : type u1 = type u) (Htype2 : type u2 = type u)
    (Hcontent : content u = content u1 +:+ content u2) :
  handleStreamEvent (ToolProgress id u2)
    (handleStreamEvent (ToolProgress id u1) prev)
  = handleStreamEvent (ToolProgress id u) prev.
Proof.
  simpl. rewrite prevStdout_insert_eq, prevStderr_insert_eq, insert_insert_eq.
  simpl. rewrite Htype1, Htype2, Hcontent.
  f_equal. f_equal.
  - destruct (decide (type u = Stdout)).
    + by rewrite string_app_assoc.
    + by rewrite !string_app_nil_r.
  - destruct (decide (type u = Stderr)).
    + by rewrite string_app_assoc.
    + by rewrite !string_app_nil_r.
Qed.

(** ["ab"] then ["cd"] on stdout, against ["abcd"] at once. *)
Lemma consecutive_progress_coalesces_witness :
  handleStreamEvent
    (ToolProgress "call-1" {| toolCallId := "call-1"; type := Stdout;
                              content := "cd"; timestamp := 2 |})
    (handleStreamEvent
       (ToolProgress "call-1" {| toolCallId := "call-1"; type := Stdout;
                                 content := "ab"; timestamp := 1 |}) ∅)
  = handleStreamEvent
      (ToolProgress "call-1" {| toolCallId := "call-1"; type := Stdout;
                                content := "abcd"; timestamp := 2 |}) ∅.
Proof.
  apply (consecutive_progress_coalesces "call-1"
           {| toolCallId := "call-1"; type := Stdout;
              content := "ab"; timestamp := 1 |}
           {| toolCallId := "call-1"; type := Stdout;
              content := "cd"; timestamp := 2 |}
           {| toolCallId := "call-1"; type := Stdout;
              content := "abcd"; timestamp := 2 |} ∅);
    reflexivity.
Defined.

(** X9: a progress event that arrives after the completion of its call
    starts the call afresh: the entry it creates holds the content of that
    event alone, nothing of what had accumulated before the completion. *)
Theorem late_progress_starts_afresh
    (id : string) (u : ToolProgressUpdate) (prev : gmap string Progress) :
  handleStreamEvent (ToolProgress id u) (handleToolResult id prev) !! id
  = Some {| stdout := if decide (type u = Stdout) then content u else "";
            stderr := if decide (type u = Stderr) then content u else "" |}.
Proof.
  rewrite ChatSpec.handleStreamEvent_lookup.
  unfold prevStdout, prevStderr, handleToolResult.
  by rewrite lookup_delete_eq.
Qed.

(** Completions only remove: an absent entry stays absent. *)
Lemma completions_keep_absent (ids : list string) (j : string)
    (prev : gmap string Progress) :
  prev !! j = None -> deliverAll (Completed <$> ids) prev !! j = None.
Proof.
  revert prev. induction ids as [|i ids IH]; intros prev Hj; [done|].
  simpl. apply IH. unfold handleToolResult.
  rewrite lookup_delete. by case_decide.
Qed.

(** Completing a call among others removes its entry. *)
Lemma completions_remove (ids : list string) (j : string)
    (prev : gmap string Progress) :
  j ∈ ids -> deliverAll (Completed <$> ids) prev !! j = None.
Proof.
  revert prev. induction ids as [|i ids IH]; intros prev Hj.
  - by apply elem_of_nil in Hj.
  - simpl. apply elem_of_cons in Hj as [->|Hj].
    + apply completions_keep_absent. apply lookup_delete_eq.
    + by apply IH.
Qed.

Lemma deliverAll_app (ms1 ms2 : list Message) (prev : gmap string Progress) :
  deliverAll (ms1 ++ ms2) prev = deliverAll ms2 (deliverAll ms1 prev).
Proof. unfold deliverAll. apply foldl_app. Qed.

(** X10: no progress is left behind: once every call that received a
    message has been completed, the state is empty again, whatever was
    delivered and however it was interleaved. *)
Theorem completed_calls_leave_no_state
    (ms : list Message) (ids : list string)
    (Hcovered : forall m id, m ∈ ms -> addressee m = Some id -> id ∈ ids) :
  deliverAll (ms ++ (Completed <$> ids)) ∅ = ∅.
Proof.
  apply map_empty. intros j. rewrite deliverAll_app.
  destruct (decide (j ∈ ids)) as [Hin|Hout].
  - by apply completions_remove.
  - apply completions_keep_absent.
    rewrite ChatSpec.deliverAll_own.
    assert (Hnone : filter (fun m => addressee m = Some j) ms = []).
    { clear -Hcovered Hout. induction ms as [|m ms IHms]; [done|].
      rewrite filter_cons_False.
      - apply IHms. intros m' id Hm'. apply Hcovered. by right.
      - intros Haddr. apply Hout. apply (Hcovered m); [by left|done]. }
    by rewrite Hnone.
Qed.

(** Two calls stream and are then completed. *)
Lemma completed_calls_leave_no_state_witness :
  deliverAll
    ([ Event (ToolProgress "call-1"
                {| toolCallId := "call-1"; type := Stdout;
                   content := "a"; timestamp := 1 |});
       Event (ToolProgress "call-2"
                {| toolCallId := "call-2"; type := Stderr;
                   content := "b"; timestamp := 2 |});
       Event TextDelta ]
     ++ (Completed <$> ["call-2"; "call-1"])) ∅
  = ∅.
Proof.
  apply completed_calls_leave_no_state.
  intros m id Hm Haddr.
  repeat (apply elem_of_cons in Hm as [->|Hm]);
    [ | | | by apply elem_of_nil in Hm ]; simpl in Haddr.
  - injection Haddr as <-. apply elem_of_cons. right. apply elem_of_cons. by left.
  - injection Haddr as <-. apply elem_of_cons. by left.
  - discriminate Haddr.
Defined.

Lemma progressCalls_one (e : StreamEvent) :
  progressCalls [e]
  = match e with ToolProgress id _ => {[ id ]} | _ => ∅ end.
Proof.
  destruct e; unfold progressCalls; simpl; try done.
  by rewrite union_empty_r_L.
Qed.

(** X11: the hook holds an entry exactly for the calls it held one for
    before and the calls that had a progress event, of any type: a status
    event alone creates the entry of its call. *)
Theorem entries_are_calls_with_progress
    (events : list StreamEvent) (prev : gmap string Progress) :
  dom (handleAll events prev) = dom prev ∪ progressCalls events.
Proof.
  induction events as [|e events IH] using rev_ind.
  - unfold progressCalls. simpl. by rewrite union_empty_r_L.
  - rewrite ChatSpec.handleAll_snoc.
    assert (Hcalls : progressCalls (events ++ [e])
                     = progressCalls events ∪ progressCalls [e]).
    { unfold progressCalls. by rewrite bind_app, list_to_set_app_L. }
    rewrite Hcalls, progressCalls_one.
    destruct e as [| | | |id u|]; unfold handleStreamEvent;
      try (by rewrite IH, union_empty_r_L).
    rewrite dom_insert_L, IH.
    apply set_eq. intros x. rewrite !elem_of_union. tauto.
Qed.

End ChatLifecycle.

(** ** The server: one writer for all running commands *)

Module ServerSpec.
Import Server.

#[local] Existing Instance Executor.Channel_eq_dec.
#[local] Existing Instance Chat.ProgressType_eq_dec.

(** What a [data] event does to the world of the callback. *)
Lemma onData_world {W : Type} (maxBuffer : Z)
    (cb : option (Executor.Update -> W -> W))
    (e : Executor.DataEvent) (s : Executor.State W) :
  Executor.world (Executor.onData maxBuffer cb e s)
  = if Executor.fits maxBuffer
         (Executor.acc (Executor.type (Executor.arrival e)) s)
         (Executor.content (Executor.arrival e))
    then Executor.callProgress cb (Executor.arrival e) (Executor.world s)
    else Executor.world s.
Proof.
  destruct (Executor.fits _ _ _) eqn:Hfit.
  - by destruct (ExecutorSpec.onData_fits maxBuffer cb e s Hfit) as (_ & _ & ->).
  - by rewrite ExecutorSpec.onData_overflow.
Qed.

Lemma serve_snoc (maxBuffer : Z) (evs : list (string * Executor.DataEvent))
    (id : string) (e : Executor.DataEvent) (r : Running) :
  serve maxBuffer (evs ++ [(id, e)]) r
  = onChildData maxBuffer id e (serve maxBuffer evs r).
Proof. unfold serve. by rewrite foldl_app. Qed.

(** A [data] event of a call writes at most one event, tagged with the id
    of that call. *)
Lemma onChildData_written (maxBuffer : Z) (id : string)
    (e : Executor.DataEvent) (r : Running) :
  written (onChildData maxBuffer id e r)
  = if Executor.fits maxBuffer
         (Executor.acc (Executor.type (Executor.arrival e)) (stateOf id r))
         (Executor.content (Executor.arrival e))
    then written r
         ++ [ {| toolCallId := id; progress := Executor.arrival e |} ]
    else written r.
Proof. unfold onChildData. simpl. by rewrite onData_world. Qed.

Lemma onChildData_output (maxBuffer : Z) (id : string)
    (e : Executor.DataEvent) (r : Running) :
  output id (onChildData maxBuffer id e r)
  = (Executor.stdout (Executor.onData maxBuffer (onProgress id) e (stateOf id r)),
     Executor.stderr (Executor.onData maxBuffer (onProgress id) e (stateOf id r))).
Proof. unfold onChildData, output. simpl. by rewrite lookup_insert_eq. Qed.

Lemma onChildData_output_other (maxBuffer : Z) (id id' : string)
    (e : Executor.DataEvent) (r : Running) :
  id' <> id ->
  output id (onChildData maxBuffer id' e r) = output id r.
Proof.
  intros Hne. unfold onChildData, output. simpl.
  by rewrite lookup_insert_ne.
Qed.

Lemma ownData_snoc (id id' : string) (e : Executor.DataEvent)
    (evs : list (string * Executor.DataEvent)) :
  ownData id (evs ++ [(id', e)])
  = ownData id evs ++ (if decide (id' = id) then [e] else []).
Proof.
  unfold ownData. rewrite filter_app, fmap_app. f_equal.
  destruct (decide (id' = id)).
  - by rewrite filter_cons_True.
  - by rewrite filter_cons_False.
Qed.

Lemma writtenFor_snoc (id : string) (ws : list ToolProgressEvent)
    (w : ToolProgressEvent) :
  writtenFor id (ws ++ [w])
  = writtenFor id ws ++ (if decide (toolCallId w = id) then [w] else []).
Proof.
  unfold writtenFor. rewrite filter_app.
  destruct (decide (toolCallId w = id)).
  - by rewrite (filter_cons_True _ w []).
  - by rewrite (filter_cons_False _ w []).
Qed.

(** A command that runs among others behaves as if it ran alone: its
    accumulators, and the events written for it. *)
Lemma serve_alone (maxBuffer : Z) (evs : list (string * Executor.DataEvent))
    (id : string) :
  writtenFor id (written (serve maxBuffer evs idle))
  = (fun u => {| toolCallId := id; progress := u |})
      <$> Executor.world
            (Executor.executeCommand maxBuffer Executor.record
               (ownData id evs) [])
  /\ output id (serve maxBuffer evs idle)
     = (Executor.stdout
          (Executor.executeCommand maxBuffer Executor.record (ownData id evs) []),
        Executor.stderr
          (Executor.executeCommand maxBuffer Executor.record (ownData id evs) [])).
Proof.
  unfold Executor.executeCommand.
  induction evs as [|[id' e] evs [IHw IHo]] using rev_ind.
  - split; [done|]. unfold output, idle. simpl. by rewrite lookup_empty.
  - rewrite serve_snoc, ownData_snoc.
    set (r := serve maxBuffer evs idle) in *.
    set (alone := Executor.run maxBuffer Executor.record
                    (ownData id evs) (Executor.init [])) in *.
    destruct (decide (id' = id)) as [->|Hne].
    + rewrite ExecutorSpec.run_snoc. fold alone.
      assert (Hacc : forall c, Executor.acc c (stateOf id r) = Executor.acc c alone).
      { intros c. unfold stateOf. rewrite IHo. by destruct c. }
      split.
      * rewrite onChildData_written, onData_world, Hacc.
        destruct (Executor.fits _ _ _); [|done].
        rewrite writtenFor_snoc, IHw. cbn [toolCallId].
        rewrite decide_True by done.
        unfold Executor.callProgress, Executor.record.
        by rewrite fmap_app.
      * rewrite onChildData_output.
        change (Executor.stdout ?s) with (Executor.acc Executor.Stdout s).
        change (Executor.stderr ?s) with (Executor.acc Executor.Stderr s).
        by rewrite !ExecutorCap.onData_acc, !Hacc.
    + rewrite app_nil_r. fold alone.
      split.
      * rewrite onChildData_written.
        destruct (Executor.fits _ _ _); [|done].
        rewrite writtenFor_snoc, IHw. cbn [toolCallId].
        rewrite decide_False by done. by rewrite app_nil_r.
      * by rewrite onChildData_output_other.
Qed.

(** What the hook is delivered for a channel of a call is what was
    written for that call on that channel. *)
Lemma received_delivered (ws : list ToolProgressEvent)
    (events : list Chat.StreamEvent) (id : string) (c : Executor.Channel) :
  Forall2 received ws events ->
  Chat.deliveredAll id (wireType c) events
  = Executor.contentsOf c (progress <$> writtenFor id ws).
Proof.
  induction 1 as [|w e ws events Hr _ IH]; [done|].
  unfold Chat.deliveredAll in *. rewrite bind_cons, IH.
  change (w :: ws) with ([w] ++ ws).
  unfold writtenFor, Executor.contentsOf.
  rewrite filter_app, fmap_app, filter_app, fmap_app. f_equal.
  destruct e as [| | | |id' p|]; try done.
  destruct Hr as (-> & Ht & Hc). simpl.
  destruct (decide (toolCallId w = id)) as [Hid|Hid].
  - rewrite (filter_cons_True _ w []) by done. simpl.
    rewrite Ht, Hc.
    destruct (decide (Executor.type (progress w) = c)) as [Hty|Hty].
    + rewrite decide_True by by rewrite Hty.
      by rewrite (filter_cons_True _ (progress w) []).
    + rewrite decide_False by by destruct (Executor.type (progress w)), c.
      by rewrite (filter_cons_False _ (progress w) []).
  - by rewrite (filter_cons_False _ w []).
Qed.

(** X12: [createStreamingToolExecutor] returns the tools it was given,
    under the same names, with [runCommand] alone replaced by its
    streaming version; without a [runCommand] it changes nothing. *)
Theorem only_runCommand_is_wrapped (Tool : Type) (streaming : Tool -> Tool)
    (tools : gmap string Tool) (name : string) :
  dom (createStreamingToolExecutor Tool streaming tools) = dom tools
  /\ createStreamingToolExecutor Tool streaming tools !! "runCommand"
     = streaming <$> tools !! "runCommand"
  /\ (name <> "runCommand" ->
      createStreamingToolExecutor Tool streaming tools !! name = tools !! name)
  /\ (tools !! "runCommand" = None ->
      createStreamingToolExecutor Tool streaming tools = tools).
Proof.
  assert (Hlookup : forall n,
    createStreamingToolExecutor Tool streaming tools !! n
    = (fun tool => if decide (n = "runCommand") then streaming tool else tool)
        <$> tools !! n).
  { intros n. unfold createStreamingToolExecutor.
    rewrite map_lookup_imap. by destruct (tools !! n). }
  split; [|split; [|split]].
  - apply set_eq. intros n. rewrite !elem_of_dom, Hlookup.
    by rewrite fmap_is_Some.
  - by rewrite Hlookup.
  - intros Hne. rewrite Hlookup.
    destruct (tools !! name); simpl; [|done]. by rewrite decide_False.
  - intros Hnone. apply map_eq. intros n. rewrite Hlookup.
    destruct (decide (n = "runCommand")) as [->|Hne].
    + by rewrite Hnone.
    + by destruct (tools !! n).
Qed.

(** X13: progress is attributed to the call that produced it. Among the
    events written to the shared writer, those tagged with a call are the
    updates that the command of that call would have emitted had it run
    alone, in the same order; and the output stored for the call is the
    output it would have stored alone, however the chunks of the running
    commands interleave. *)
Theorem progress_is_attributed_to_its_call (maxBuffer : Z)
    (evs : list (string * Executor.DataEvent)) (id : string) :
  writtenFor id (written (serve maxBuffer evs idle))
  = (fun u => {| toolCallId := id; progress := u |})
      <$> Executor.world
            (Executor.executeCommand maxBuffer Executor.record
               (ownData id evs) [])
  /\ output id (serve maxBuffer evs idle)
     = (Executor.stdout
          (Executor.executeCommand maxBuffer Executor.record (ownData id evs) []),
        Executor.stderr
          (Executor.executeCommand maxBuffer Executor.record (ownData id evs) [])).
Proof. apply serve_alone. Qed.

(** X14: streamed output matches the final result. When the hook has
    handled the events that the running commands wrote, the stdout and
    stderr it holds for each call are the stdout and stderr that the
    server has stored for that call. *)
Theorem streamed_output_matches_result (maxBuffer : Z)
    (evs : list (string * Executor.DataEvent))
    (events : list Chat.StreamEvent) (id : string)
    (Hstream : Forall2 received (written (serve maxBuffer evs idle)) events) :
  Chat.prevStdout (Chat.handleAll events ∅) id
    = (output id (serve maxBuffer evs idle)).1
  /\ Chat.prevStderr (Chat.handleAll events ∅) id
    = (output id (serve maxBuffer evs idle)).2.
Proof.
  destruct (serve_alone maxBuffer evs id) as [Hw Ho].
  assert (Hlog : progress <$> writtenFor id (written (serve maxBuffer evs idle))
                 = Executor.world
                     (Executor.executeCommand maxBuffer Executor.record
                        (ownData id evs) [])).
  { rewrite Hw, <- list_fmap_compose. apply list_fmap_id. }
  rewrite Ho. simpl. split.
  - rewrite ChatSpec.handleAll_stdout.
    unfold Chat.prevStdout. rewrite lookup_empty, string_app_nil_l.
    pose proof (received_delivered _ _ id Executor.Stdout Hstream) as Hd.
    change (wireType Executor.Stdout) with Chat.Stdout in Hd.
    rewrite Hd, Hlog.
    apply (ExecutorSpec.log_adds_up maxBuffer (ownData id evs) Executor.Stdout).
  - rewrite ChatSpec.handleAll_stderr.
    unfold Chat.prevStderr. rewrite lookup_empty, string_app_nil_l.
    pose proof (received_delivered _ _ id Executor.Stderr Hstream) as Hd.
    change (wireType Executor.Stderr) with Chat.Stderr in Hd.
    rewrite Hd, Hlog.
    apply (ExecutorSpec.log_adds_up maxBuffer (ownData id evs) Executor.Stderr).
Qed.

(** Two commands side by side under [maxBuffer = 4]; the chunk ["cde"] of
    the first is dropped by the server and never reaches the hook. *)
Lemma streamed_output_matches_result_witness :
  Chat.prevStdout
    (Chat.handleAll
       [ Chat.ToolProgress "c1"
           {| Chat.toolCallId := "c1"; Chat.type := Chat.Stdout;
              Chat.content := "ab"; Chat.timestamp := 1 |};
         Chat.ToolProgress "c2"
           {| Chat.toolCallId := "c2"; Chat.type := Chat.Stdout;
              Chat.content := "xy"; Chat.timestamp := 2 |};
         Chat.ToolProgress "c1"
           {| Chat.toolCallId := "c1"; Chat.type := Chat.Stderr;
              Chat.content := "e"; Chat.timestamp := 3 |};
         Chat.ToolProgress "c2"
           {| Chat.toolCallId := "c2"; Chat.type := Chat.Stdout;
              Chat.content := "z"; Chat.timestamp := 4 |} ] ∅) "c1"
  = "ab".
Proof.
  destruct (streamed_output_matches_result 4
              [ ("c1", Executor.StdoutData "ab");
                ("c2", Executor.StdoutData "xy");
                ("c1", Executor.StderrData "e");
                ("c1", Executor.StdoutData "cde");
                ("c2", Executor.StdoutData "z") ]
              [ Chat.ToolProgress "c1"
                  {| Chat.toolCallId := "c1"; Chat.type := Chat.Stdout;
                     Chat.content := "ab"; Chat.timestamp := 1 |};
                Chat.ToolProgress "c2"
                  {| Chat.toolCallId := "c2"; Chat.type := Chat.Stdout;
                     Chat.content := "xy"; Chat.timestamp := 2 |};
                Chat.ToolProgress "c1"
                  {| Chat.toolCallId := "c1"; Chat.type := Chat.Stderr;
                     Chat.content := "e"; Chat.timestamp := 3 |};
                Chat.ToolProgress "c2"
                  {| Chat.toolCallId := "c2"; Chat.type := Chat.Stdout;
                     Chat.content := "z"; Chat.timestamp := 4 |} ]
              "c1") as [Hout _].
  - vm_compute. repeat constructor.
  - rewrite Hout. vm_compute. reflexivity.
Defined.

End ServerSpec.

(** ** The abort listener: what the timer can do *)

Module AbortEscalation.
Import Abort.

Lemma step_guarded (e : Event) (l : Loop) : guarded l -> guarded (step e l).
Proof.
  intros [Hnot Harmed]. destruct l as [[r k recv] ts]. simpl in *.
  destruct e; simpl.
  - unfold onAbort, kill. simpl. destruct r; simpl.
    + split; [|by left]. simpl.
      rewrite elem_of_app, list_elem_of_singleton. by intros [?|?].
    + split; [done|by right].
  - destruct ts as [|t ts]; [by split|]. simpl.
    destruct (Harmed ltac:(done)) as [->| ->]; simpl.
    + split; [done|by left].
    + unfold onTimer, kill. simpl. destruct k; simpl.
      * split; [done|by left].
      * split; [done|by right].
  - split; [done|]. intros _. by right.
Qed.

(** X15: the forced signal is never sent. From a freshly spawned child,
    whatever the order of aborts, timers and exits, [SIGKILL] is never
    sent: when the timer fires, either [SIGTERM] was sent and
    [child.killed] stops the escalation, or Node had seen the child exit
    before the abort and there is nothing left to signal. *)
Theorem forced_signal_is_never_sent (es : list Event) :
  SIGKILL ∉ received (child (run es spawned)).
Proof.
  assert (Hinv : guarded (run es spawned)).
  { induction es as [|e es IH] using rev_ind.
    - split; [|done]. simpl. apply not_elem_of_nil.
    - unfold run in *. rewrite foldl_app. simpl. by apply step_guarded. }
  by destruct Hinv.
Qed.

End AbortEscalation.
